(** * Device kernels of pycudf/cudautils.py: a shallow embedding

    The module holds the device kernels of a columnar engine: a bit-packed
    validity mask, mask-driven compaction, null filling, reductions and a
    bounded unique-value extractor.  Each kernel is embedded as a function
    of the thread index on the buffers it touches; a launch folds the
    kernel over the thread indices of the grid.  Device buffers are lists
    of integers, read with [!!!] and written with [<[i:=x]>].  A device
    read or write outside a buffer is undefined in the source; here a read
    yields the default and a write changes nothing, and the theorems are
    stated for buffers that are large enough. *)

From Stdlib Require Import ZArith Lia Bool.
From stdpp Require Import base decidable option numbers list countable gmap.

Local Open Scope Z_scope.
Local Open Scope nat_scope.

Set Default Proof Using "Type".

(** Settles [b = test] for a boolean [b] and a comparison of numbers that
    linear arithmetic decides. *)
Ltac test_by_lia :=
  symmetry;
  first [ solve [apply Nat.ltb_lt; lia] | solve [apply Nat.ltb_ge; lia]
        | solve [apply Z.ltb_lt; lia] | solve [apply Z.ltb_ge; lia]
        | solve [apply Z.leb_le; lia] | solve [apply Z.leb_gt; lia]
        | solve [apply Z.geb_le; lia] | solve [apply Z.eqb_neq; lia]
        | solve [rewrite Z.geb_leb; apply Z.leb_gt; lia] ].

(** ** Fixed-width values *)

(** The value kept by a store into an unsigned cell of [bits] bits. *)
Definition wrap (bits : nat) (v : Z) : Z := (v mod 2 ^ Z.of_nat bits)%Z.

(** The integer element types.  A store into a cell keeps the low bits
    of the value; a signed cell reads them in two's complement.  The
    floating-point types are left out. *)
Inductive dtype :=
| uint (bits : nat)
| int (bits : nat).

Global Instance dtype_eq_dec : EqDecision dtype.
Proof. solve_decision. Defined.

Definition cast (dt : dtype) (v : Z) : Z :=
  match dt with
  | uint bits => wrap bits v
  | int bits =>
      let half := (2 ^ (Z.of_nat bits - 1))%Z in
      (wrap bits (v + half) - half)%Z
  end.

Global Instance dtype_countable : Countable dtype.
Proof.
  refine (inj_countable'
            (fun dt => match dt with uint bits => inl bits | int bits => inr bits end)
            (fun code => match code with inl bits => uint bits | inr bits => int bits end)
            _).
  by intros [].
Defined.

(** Python truth value of an integer. *)
Definition truthy (v : Z) : bool := negb (v =? 0)%Z.

(** Memory contents for the concrete runs below: memory that reads 0
    before its first write, and a reduction that leaves its buffer 0. *)
Definition zero_fill : nat -> nat -> Z := fun _ _ => 0%Z.
Definition zero_out : list Z -> nat -> Z := fun _ _ => 0%Z.

(** A stand-in for the squared deviation [(x - mu) ** 2] of the concrete
    runs, on the cross-multiplied quotient. *)
Definition cross_dev : Z -> Z * nat -> Z :=
  fun x mu => ((x * Z.of_nat (snd mu) - fst mu) ^ 2)%Z.

Section Kernels.

(** [mask_bitsize] is imported from [.utils], which is not part of the
    sources: the number of bits of one mask word.  [threads_per_block] is
    the block size that a [forall] launch picks. *)
Context (mask_bitsize : nat) (threads_per_block : nat).

(** [cuda.device_array] and [cuda.shared.array] do not initialise:
    [stale site i] is what cell [i] of the buffer allocated at [site] holds
    until its first write.  The sites are numbered within each host
    function, so that no two of its buffers need start alike. *)
Context (stale : nat -> nat -> Z).

Definition device_array (site size : nat) : list Z := stale site <$> seq 0 size.

Definition device_array_like (site : nat) (ary : list Z) : list Z :=
  device_array site (length ary).

(** [dst.copy_to_device(src)] for buffers of one size. *)
Definition copy_to_device (dst src : list Z) : list Z :=
  take (length dst) src ++ drop (length src) dst.

(** ** Launches *)

(** [kernel.forall(ntasks)] starts whole blocks: the least multiple of the
    block size that covers [ntasks]. *)
Definition forall_threads (ntasks : nat) : nat :=
  (ntasks + threads_per_block - 1) / threads_per_block * threads_per_block.

(** The threads of a one-dimensional grid, run in index order; [tid] is
    [cuda.grid(1)]. *)
Definition launch {St : Type} (nthreads : nat) (kernel : nat -> St -> St) (st : St) : St :=
  foldl (fun s tid => kernel tid s) st (seq 0 nthreads).

Definition forall_launch {St : Type} (ntasks : nat) (kernel : nat -> St -> St) (st : St) : St :=
  launch (forall_threads ntasks) kernel st.

(** ** Mask utils *)

(** The loop [for shift in range(bitsize)] of [gpu_set_mask_from_stride]:
    [val |= bit << shift] with [bit = (idx % stride) == 0]. *)
Definition stride_bits (stride : Z) (base bitsize : nat) : Z :=
  foldl (fun val shift =>
           let idx := base + shift in
           let bit := (Z.of_nat idx mod stride =? 0)%Z in
           Z.lor val (Z.shiftl (Z.b2z bit) (Z.of_nat shift)))
        0%Z (seq 0 bitsize).

(** A mask word holds [mask_bitsize] bits. *)
Definition gpu_set_mask_from_stride (stride : Z) (tid : nat) (mask : list Z) : list Z :=
  let bitsize := mask_bitsize in
  if tid <? length mask then
    let base := tid * bitsize in
    <[tid := wrap mask_bitsize (stride_bits stride base bitsize)]> mask
  else mask.

Definition set_mask_from_stride (mask : list Z) (stride : Z) : list Z :=
  let taskct := length mask in
  forall_launch taskct (gpu_set_mask_from_stride stride) mask.

Definition gpu_mask_get (mask : list Z) (pos : nat) : Z :=
  Z.land (Z.shiftr (mask !!! (pos / mask_bitsize)) (Z.of_nat (pos mod mask_bitsize))) 1.

(** ** Compaction *)

(** The accumulator and the cells are unsigned 64-bit. *)
Definition gpu_prefixsum (data : list Z) (initial : Z) : list Z * Z :=
  foldl (fun '(data, acc) i =>
           let tmp := data !!! i in
           (<[i := acc]> data, wrap 64 (acc + tmp)%Z))
        (data, initial) (seq 0 (length data)).

(** [range(0, size, blksz)]. *)
Definition chunk_bases (size blksz : nat) : list nat :=
  (fun c => c * blksz) <$> seq 0 ((size + blksz - 1) / blksz).

(** State of the single block of [gpu_mask_assign_slot]: the output, the
    shared array [sm_prefix] and [offset], which every thread reloads from
    [sm_prefix[32]] and so holds one value for the block. *)
Record slot_state := SlotState {
  st_slots : list Z;
  st_prefix : list Z;
  st_offset : Z
}.

(** One iteration of [for base in range(0, slots.size, blksz)].  The block
    is one warp, whose threads run each statement together: all threads
    load a bit, thread 0 scans, all threads store a slot. *)
Definition assign_slot_load (mask : list Z) (size base tid : nat) (sm_prefix : list Z)
  : list Z :=
  let i := base + tid in
  let sm_prefix := <[tid := 0%Z]> sm_prefix in
  if i <? size then <[tid := gpu_mask_get mask i]> sm_prefix else sm_prefix.

Definition assign_slot_store (sm_prefix : list Z) (size base tid : nat) (slots : list Z)
  : list Z :=
  let i := base + tid in
  if i <? size then <[i := sm_prefix !!! tid]> slots else slots.

Definition assign_slot_chunk (mask : list Z) (blksz : nat) (st : slot_state) (base : nat)
  : slot_state :=
  let size := length (st_slots st) in
  let sm_prefix := launch blksz (assign_slot_load mask size base) (st_prefix st) in
  let '(scanned, offset) := gpu_prefixsum (take 32 sm_prefix) (st_offset st) in
  let sm_prefix := <[32 := offset]> (scanned ++ drop 32 sm_prefix) in
  let offset := sm_prefix !!! 32 in
  let slots := launch blksz (assign_slot_store sm_prefix size base) (st_slots st) in
  SlotState slots sm_prefix offset.

(** [gpu_mask_assign_slot[1, blksz](mask, slots)]. *)
Definition gpu_mask_assign_slot (blksz : nat) (mask slots : list Z) : list Z :=
  let sm_prefix := device_array 1 33 in
  st_slots (foldl (assign_slot_chunk mask blksz)
                  (SlotState slots sm_prefix 0%Z)
                  (chunk_bases (length slots) blksz)).

Definition gpu_copy_to_dense (data mask slots : list Z) (tid : nat) (out : list Z) : list Z :=
  if (tid <? length data) && truthy (gpu_mask_get mask tid)
  then let idx := slots !!! tid in <[Z.to_nat idx := data !!! tid]> out
  else out.

Inductive exn := ValueError | NotImplementedError | ZeroDivisionError.

Inductive result (A : Type) :=
| Ok (a : A)
| Raise (e : exn).
Global Arguments Ok {A} a.
Global Arguments Raise {A} e.

(** [copy_to_dense(data, mask, out)].  [sz] is [slots[-1:] + 1]: for a
    column without elements that slice is empty and [sz] is no number;
    the model yields [None] there. *)
Definition copy_to_dense (data mask : list Z) (out : option (list Z))
  : option (result (Z * list Z)) :=
  let slots := device_array 0 (length data) in
  let slots := gpu_mask_assign_slot 32 mask slots in
  match last slots with
  | None => None
  | Some r =>
      let sz := wrap 64 (r + 1)%Z in
      let gather := forall_launch (length data) (gpu_copy_to_dense data mask slots) in
      match out with
      | None =>
          let out := device_array 2 (Z.to_nat sz) in
          Some (Ok (sz, gather out))
      | Some out =>
          if (sz >=? Z.of_nat (length out))%Z
          then Some (Raise ValueError)
          else Some (Ok (sz, gather out))
      end
  end.

(** ** Fill NA *)

(** [out[tid] = value], stored in the element type [dt] of [out]. *)
Definition gpu_fill_masked (dt : dtype) (value : Z) (validity : list Z) (tid : nat)
    (out : list Z) : list Z :=
  if tid <? length out then
    let valid := gpu_mask_get validity tid in
    if negb (truthy valid) then <[tid := cast dt value]> out else out
  else out.

(** [fillna(data, mask, value)] for a column [data] of element type
    [data_dtype], which [device_array_like] gives to [out]. *)
Definition fillna (data_dtype : dtype) (data mask : list Z) (value : Z) : list Z :=
  let out := device_array_like 0 data in
  let out := copy_to_device out data in
  forall_launch (length data) (gpu_fill_masked data_dtype value mask) out.

(** ** Reductions *)

(** The reductions take and return device arrays by reference; the device
    memory is the list of its buffers and a reference is an index into
    it, which also names the allocation.  A computation on it may fail (a
    reference to no buffer). *)
Abbreviation heap := (list (list Z)).

Definition dev (A : Type) : Type := heap -> option (A * heap).

Definition dev_ret {A} (a : A) : dev A := fun h => Some (a, h).

Definition dev_bind {A B} (c : dev A) (k : A -> dev B) : dev B :=
  fun h => match c h with
           | Some (a, h') => k a h'
           | None => None
           end.

Notation "'let*' x := c 'in' k" := (dev_bind c (fun x => k))
  (at level 10, x name, c at level 100, k at level 200).

Definition dev_read (p : nat) : dev (list Z) :=
  fun h => match h !! p with
           | Some buf => Some (buf, h)
           | None => None
           end.

Definition dev_write (p : nat) (buf : list Z) : dev unit :=
  fun h => if p <? length h then Some (tt, <[p := buf]> h) else None.

Definition dev_alloc (size : nat) : dev nat :=
  fun h => Some (length h, h ++ [device_array (length h) size]).

(** [copy_array(arr)] with [out=None]. *)
Definition copy_array (arr : nat) : dev nat :=
  let* src := dev_read arr in
  let* out := dev_alloc (length src) in
  let* dst := dev_read out in
  if negb (length dst =? length src) then (fun _ => None) else
  let* u := dev_write out (copy_to_device dst src) in
  dev_ret out.

(** [consumed buf i] is what a reduction leaves in cell [i] of the buffer
    [buf] it was run on: the reduction works in the array it is handed. *)
Context (consumed : list Z -> nat -> Z).

(** Modelled from the spec: [cuda.reduce(op)] is a library call; section
    4.4 gives its result as [fold(op, data, init)]. *)
Definition gpu_reduce (op : Z -> Z -> Z) (arr : nat) (init : Z) : dev Z :=
  let* buf := dev_read arr in
  let* u := dev_write arr (consumed buf <$> seq 0 (length buf)) in
  dev_ret (foldl op init buf).

(** The reduction is compiled for the element type [dt] of the array it
    is handed: [x + y] is kept in a value of that type. *)
Definition gpu_sum (dt : dtype) : nat -> Z -> dev Z :=
  gpu_reduce (fun x y => cast dt (x + y)%Z).
Definition gpu_min : nat -> Z -> dev Z := gpu_reduce (fun x y => Z.min x y).
Definition gpu_max : nat -> Z -> dev Z := gpu_reduce (fun x y => Z.max x y).

(** [init] and [inplace] default to [0] and [False]. *)
Definition _run_reduction (gpu_reduce : nat -> Z -> dev Z) (arr : nat)
    (init : option Z) (inplace : option bool) : dev Z :=
  let init := default 0%Z init in
  let inplace := default false inplace in
  let* arr := (if negb inplace then copy_array arr else dev_ret arr) in
  gpu_reduce arr init.

(** [partial(_run_reduction, gpu_sum, init=0)] and the two partial
    applications that pass no [init]; [dt] is the element type of [arr]. *)
Definition compute_sum (dt : dtype) (arr : nat) (inplace : option bool) : dev Z :=
  _run_reduction (gpu_sum dt) arr (Some 0%Z) inplace.
Definition compute_min (arr : nat) (inplace : option bool) : dev Z :=
  _run_reduction gpu_min arr None inplace.
Definition compute_max (arr : nat) (inplace : option bool) : dev Z :=
  _run_reduction gpu_max arr None inplace.

(** [compute_sum(arr, inplace=inplace) / arr.size]: the quotient is a
    floating-point number; the model returns numerator and denominator.
    The sum is taken first; the division by the size of a column without
    elements then raises. *)
Definition compute_mean (dt : dtype) (arr : nat) (inplace : option bool)
  : dev (result (Z * nat)) :=
  let* s := compute_sum dt arr inplace in
  let* buf := dev_read arr in
  if length buf =? 0 then dev_ret (Raise ZeroDivisionError)
  else dev_ret (Ok (s, length buf)).

(** ** Unique values *)

(** The loop [for i in range(sz)] of [gpu_unique_set_insert], from index
    [i] with [n] rounds left: does it return early? *)
Fixpoint vset_scan (vset : list Z) (val : Z) (i n : nat) : bool :=
  match n with
  | O => false
  | S n' => if (vset !!! i =? val)%Z then true else vset_scan vset val (S i) n'
  end.

(** Returns the set and the new size, [-1] when out of space.  After a
    loop of [sz > 0] rounds [i] is [sz - 1]; after a loop of no round the
    source reads [i] unassigned, and its guard [if sz > 0] takes it to be
    0 there. *)
Definition gpu_unique_set_insert (vset : list Z) (sz val : Z) : list Z * Z :=
  if vset_scan vset val 0 (Z.to_nat sz) then (vset, sz)
  else
    let i := if (sz >? 0)%Z then (sz - 1 + 1)%Z else 0%Z in
    if (i <? Z.of_nat (length vset))%Z
    then (<[Z.to_nat i := val]> vset, (sz + 1)%Z)
    else (vset, (-1)%Z).

Definition MAX_FAST_UNIQUE_K : Z := 2 * 1024.

(** State of the single block of [gpu_unique_k]; [vset_size] goes through
    [share_vset_size[0]] after each chunk, so the block holds one value. *)
Record unique_state := UniqueState {
  us_vset : list Z;
  us_loaded : list Z;
  us_vset_size : Z;
  us_base : nat
}.

(** The body of the [while] loop: all threads load, then thread 0
    inserts the loaded values one by one. *)
Definition unique_load (arr : list Z) (base valid_load tid : nat) (share_loaded : list Z)
  : list Z :=
  let pos := base + tid in
  if tid <? valid_load then <[tid := arr !!! pos]> share_loaded else share_loaded.

Definition unique_insert (share_loaded : list Z) (sm_mem_size : Z) (st : list Z * Z) (i : nat)
  : list Z * Z :=
  let '(vset, vset_size) := st in
  let val := share_loaded !!! i in
  let '(vset, new_size) := gpu_unique_set_insert vset vset_size val in
  if (new_size >=? 0)%Z then (vset, new_size)
  else (vset, (sm_mem_size + 1)%Z).

Definition unique_chunk (arr : list Z) (sm_mem_size : Z) (blksz : nat) (st : unique_state)
  : unique_state :=
  let base := us_base st in
  let valid_load := blksz `min` (length arr - base) in
  let share_loaded := launch blksz (unique_load arr base valid_load) (us_loaded st) in
  let '(vset, vset_size) :=
    foldl (unique_insert share_loaded sm_mem_size)
          (us_vset st, us_vset_size st) (seq 0 valid_load) in
  UniqueState vset share_loaded vset_size (base + blksz).

(** [while vset_size < sm_mem_size and base < arr.size]; [None] when the
    fuel runs out before the loop ends. *)
Fixpoint unique_loop (fuel : nat) (arr : list Z) (sm_mem_size : Z) (blksz : nat)
    (st : unique_state) : option unique_state :=
  if (us_vset_size st <? sm_mem_size)%Z && (us_base st <? length arr) then
    match fuel with
    | O => None
    | S fuel' => unique_loop fuel' arr sm_mem_size blksz (unique_chunk arr sm_mem_size blksz st)
    end
  else Some st.

(** [range(start, stop, step)] for a positive step. *)
Definition strided_range (start stop step : nat) : list nat :=
  (fun q => start + q * step) <$> seq 0 ((stop - start + step - 1) / step).

(** The output loop of thread [tid]:
    [for i in range(tid, vset_size, blksz): out[i] = vset[i]]. *)
Definition unique_store (vset : list Z) (vset_size blksz tid : nat) (out : list Z) : list Z :=
  foldl (fun out i => <[i := vset !!! i]> out) out (strided_range tid vset_size blksz).

(** [gpu_unique_k[1, blksz](arr, k, out, outsz_ptr)]: the buffers [out]
    and [outsz_ptr] after the kernel. *)
Definition gpu_unique_k (blksz : nat) (arr : list Z) (k : Z) (out outsz_ptr : list Z)
  : option (list Z * list Z) :=
  let sm_mem_size := MAX_FAST_UNIQUE_K in
  let vset := device_array 0 (Z.to_nat sm_mem_size) in
  let share_loaded := device_array 1 (Z.to_nat sm_mem_size) in
  let sm_mem_size := (k `min` sm_mem_size)%Z in
  match unique_loop (S (length arr)) arr sm_mem_size blksz
                    (UniqueState vset share_loaded 0%Z 0) with
  | None => None
  | Some st =>
      let vset := us_vset st in
      let vset_size := us_vset_size st in
      if (vset_size <=? sm_mem_size)%Z then
        let out := launch blksz (unique_store vset (Z.to_nat vset_size) blksz) out in
        Some (out, <[0 := vset_size]> outsz_ptr)
      else Some (out, <[0 := (-1)%Z]> outsz_ptr)
  end.

(** [UniqueK.run(arr, k)]. *)
Definition run (arr : list Z) (k : Z) : option (result (list Z)) :=
  if (k >=? MAX_FAST_UNIQUE_K)%Z then Some (Raise NotImplementedError)
  else
    let outsz_ptr := device_array 2 1 in
    let out := device_array_like 3 arr in
    match gpu_unique_k 64 arr k out outsz_ptr with
    | None => None
    | Some (out, outsz_ptr) =>
        let unique_ct := outsz_ptr !!! 0 in
        if (unique_ct <? 0)%Z then Some (Raise ValueError)
        else Some (Ok (take (Z.to_nat unique_ct) out))
    end.

Definition compute_unique_k (arr : list Z) (k : Z) : option (result (list Z)) :=
  run arr k.

(** ** GPU array type casting *)

(** [out[tid] = inp[tid]], stored in the element type [dt] of [out]. *)
Definition gpu_copy (dt : dtype) (inp : list Z) (tid : nat) (out : list Z) : list Z :=
  if tid <? length out then <[tid := cast dt (inp !!! tid)]> out else out.

(** [astype(ary, dtype)] for an array [ary] of element type [ary_dtype]. *)
Definition astype (ary_dtype : dtype) (ary : list Z) (dt : dtype) : list Z :=
  if decide (ary_dtype = dt) then ary
  else
    let out := device_array 0 (length ary) in
    forall_launch (length out) (gpu_copy dt ary) out.

(** [copy_array(arr, out)] with an output buffer. *)
Definition copy_array_to (arr out : nat) : dev nat :=
  let* src := dev_read arr in
  let* dst := dev_read out in
  if negb (length dst =? length src) then (fun _ => None) else
  let* u := dev_write out (copy_to_device dst src) in
  dev_ret out.

(** ** Copy column into a matrix *)




(** ** Binary kernels *)

(** [out[i] = (arr[i] == val)], stored in the element type [dt] of [out]. *)
Definition gpu_equal_constant (dt : dtype) (arr : list Z) (val : Z) (i : nat) (out : list Z)
  : list Z :=
  if i <? length out then <[i := cast dt (Z.b2z (arr !!! i =? val)%Z)]> out else out.

Definition apply_equal_constant (arr : list Z) (val : Z) (dt : dtype) : list Z :=
  let out := device_array 0 (length arr) in
  forall_launch (length out) (gpu_equal_constant dt arr val) out.

(** ** Variance *)

(** [(x - mu) ** 2] is floating-point arithmetic on the quotient [mu]:
    [sq_dev x mu] is the value that the store into [out] keeps. *)
Context (sq_dev : Z -> Z * nat -> Z).

Definition gpu_variance_step (xs : list Z) (mu : Z * nat) (tid : nat) (out : list Z)
  : list Z :=
  if tid <? length out then
    let x := xs !!! tid in
    <[tid := sq_dev x mu]> out
  else out.

(** Returns (mean, variance).  [tmp] has the element type [dt] of [arr];
    an exception of either mean ends the call. *)
Definition compute_stats (dt : dtype) (arr : nat)
  : dev (result ((Z * nat) * (Z * nat))) :=
  let* mu := compute_mean dt arr None in
  match mu with
  | Raise e => dev_ret (Raise e)
  | Ok mu =>
      let* xs := dev_read arr in
      let* tmp := dev_alloc (length xs) in
      let* out := dev_read tmp in
      let* u := dev_write tmp (forall_launch (length xs) (gpu_variance_step xs mu) out) in
      let* var := compute_mean dt tmp (Some true) in
      match var with
      | Raise e => dev_ret (Raise e)
      | Ok var => dev_ret (Ok (mu, var))
      end
  end.

(** ** The kernel cache of [UniqueK] *)

(** A compiled kernel is told by the element type it is specialised to.
    The class keeps the kernels in the dictionary [_cached_kernels];
    [kc_compiled] counts the runs of [_compile] and is not in the
    source. *)
Record kernel_cache := KernelCache {
  kc_kernels : gmap dtype dtype;
  kc_compiled : nat
}.

Definition _compile (dt : dtype) (st : kernel_cache) : dtype * kernel_cache :=
  let nbtype := dt in
  let gpu_unique_k := nbtype in
  (gpu_unique_k, KernelCache (<[dt := gpu_unique_k]> (kc_kernels st)) (S (kc_compiled st))).

Definition _get_kernel (dt : dtype) (st : kernel_cache) : dtype * kernel_cache :=
  match kc_kernels st !! dt with
  | Some kernel => (kernel, st)
  | None => _compile dt st
  end.

(** [UniqueK(dtype)] for each element type of a list in turn: the cache
    afterwards. *)
Definition construct_all (dts : list dtype) (st : kernel_cache) : kernel_cache :=
  foldl (fun st dt => snd (_get_kernel dt st)) st dts.

(** ** Terms of the specification *)

(** The sum of a list. *)
Definition total (l : list Z) : Z := foldr Z.add 0%Z l.

(** The shape of the kernels that write one cell per thread: thread
    [tid] stores [f tid] in cell [tid] of the output, if there is one. *)
Definition store_at (f : nat -> Z) (tid : nat) (out : list Z) : list Z :=
  if tid <? length out then <[tid := f tid]> out else out.


(** The values that a cell of type [dt] holds unchanged. *)
Definition fits (dt : dtype) (v : Z) : Prop := cast dt v = v.


(** Bit [i] of the mask is set. *)
Definition bit_set (mask : list Z) (i : nat) : Prop := gpu_mask_get mask i = 1%Z.

Global Instance bit_set_dec (mask : list Z) (i : nat) : Decision (bit_set mask i) :=
  decide (gpu_mask_get mask i = 1%Z).

(** The valid positions below [n], in order, and their number. *)
Definition valid_indices (mask : list Z) (n : nat) : list nat :=
  filter (bit_set mask) (seq 0 n).

Definition count_valid (mask : list Z) (n : nat) : nat := length (valid_indices mask n).

(** The valid elements of a column, in their order. *)
Definition dense (data mask : list Z) : list Z :=
  (fun i => data !!! i) <$> valid_indices mask (length data).

(** The rank of position [i]: how many valid positions precede it. *)
Definition rank (mask : list Z) (i : nat) : Z := Z.of_nat (count_valid mask i).

(** What holds between two chunks of [gpu_mask_assign_slot] over [N]
    elements, before the chunk that starts at [base]. *)
Definition slot_inv (mask : list Z) (N base : nat) (st : slot_state) : Prop :=
  length (st_slots st) = N /\
  length (st_prefix st) = 33 /\
  st_offset st = rank mask (base `min` N) /\
  forall i, i < base `min` N -> st_slots st !! i = Some (rank mask i).

(** The set of [gpu_unique_k] as a list: a value joins at the end unless
    it is there already. *)
Definition dedup_step (seen : list Z) (val : Z) : list Z :=
  if decide (val ∈ seen) then seen else seen ++ [val].

Definition dedup_from (seen l : list Z) : list Z := foldl dedup_step seen l.

(** The shared array [vset] and its size hold the set [seen]. *)
Definition holds_set (vset : list Z) (vset_size : Z) (seen : list Z) : Prop :=
  vset_size = Z.of_nat (length seen) /\
  length seen <= length vset /\
  take (length seen) vset = seen.

(** What holds between two chunks of [gpu_unique_k]: the shared arrays
    have their declared size and the set is that of the values read so
    far. *)
Definition unique_inv (arr : list Z) (st : unique_state) : Prop :=
  length (us_vset st) = Z.to_nat MAX_FAST_UNIQUE_K /\
  length (us_loaded st) = Z.to_nat MAX_FAST_UNIQUE_K /\
  holds_set (us_vset st) (us_vset_size st) (dedup_from [] (take (us_base st) arr)).

(** The state of [gpu_unique_k] between two chunks, on any input: the
    shared arrays have their declared size, and either the set is that of
    the values read so far or its size is above [sm_mem_size]. *)
Definition unique_any_inv (arr : list Z) (sm_mem_size : Z) (st : unique_state) : Prop :=
  length (us_vset st) = Z.to_nat MAX_FAST_UNIQUE_K /\
  length (us_loaded st) = Z.to_nat MAX_FAST_UNIQUE_K /\
  us_base st mod 64 = 0 /\
  (holds_set (us_vset st) (us_vset_size st) (dedup_from [] (take (us_base st) arr)) \/
   (sm_mem_size < us_vset_size st)%Z).

(** The number of distinct values of a column. *)
Definition distinct_count (data : list Z) : nat := length (remove_dups data).

(** [ceil(a / b)] for a positive [b]. *)
Definition ceil_div (a b : Z) : Z := ((a + b - 1) / b)%Z.

(** * Properties *)

(** ** Launches *)

Lemma forall_threads_ge (ntasks : nat) :
  0 < threads_per_block -> ntasks <= forall_threads ntasks.
Proof.
  intros Hblock. unfold forall_threads.
  pose proof (Nat.div_mod_eq (ntasks + threads_per_block - 1) threads_per_block) as E.
  pose proof (Nat.mod_upper_bound (ntasks + threads_per_block - 1) threads_per_block) as B.
  nia.
Qed.

Lemma foldl_snoc {A B} (f : A -> B -> A) (a : A) (l : list B) (x : B) :
  foldl f a (l ++ [x]) = f (foldl f a l) x.
Proof. by rewrite foldl_app. Qed.

(** A kernel whose thread [tid] touches cell [tid] only, where it puts
    [g tid] of what the cell held: a launch applies [g] to the cells below
    the number of threads. *)
Lemma launch_pointwise (kernel : nat -> list Z -> list Z) (g : nat -> Z -> Z) :
  (forall tid s j, j <> tid -> kernel tid s !! j = s !! j) ->
  (forall tid s, kernel tid s !! tid = g tid <$> s !! tid) ->
  forall nthreads s i,
    launch nthreads kernel s !! i
    = if decide (i < nthreads) then g i <$> s !! i else s !! i.
Proof.
  intros Hframe Hown nthreads s i. unfold launch.
  induction nthreads as [|n IH].
  - destruct (decide (i < 0)); [lia | done].
  - rewrite seq_S, foldl_snoc. simpl.
    destruct (decide (i = n)) as [->|Hne].
    + rewrite Hown, IH. repeat case_decide; try lia. done.
    + rewrite Hframe by done. rewrite IH. repeat case_decide; try lia; done.
Qed.

Lemma launch_length (kernel : nat -> list Z -> list Z) :
  (forall tid s, length (kernel tid s) = length s) ->
  forall nthreads s, length (launch nthreads kernel s) = length s.
Proof.
  intros Hlen nthreads s. unfold launch.
  induction nthreads as [|n IH]; [done|].
  rewrite seq_S, foldl_snoc. simpl. by rewrite Hlen.
Qed.

(** ** Mask utils *)

Lemma b2z_testbit (b : bool) (m : Z) :
  Z.testbit (Z.b2z b) m = b && (m =? 0)%Z.
Proof.
  destruct (Z.eqb_spec m 0) as [->|Hm].
  - rewrite Z.b2z_bit0. by destruct b.
  - rewrite andb_false_r. destruct (Z.lt_ge_cases m 0) as [Hneg|Hpos].
    + by apply Z.testbit_neg_r.
    + destruct b; simpl.
      * apply Z.bits_above_log2; simpl; lia.
      * apply Z.bits_0.
Qed.

Lemma stride_bits_testbit (stride : Z) (base bitsize j : nat) :
  Z.testbit (stride_bits stride base bitsize) (Z.of_nat j)
  = (j <? bitsize) && (Z.of_nat (base + j) mod stride =? 0)%Z.
Proof.
  unfold stride_bits. induction bitsize as [|n IH].
  - simpl. apply Z.bits_0.
  - rewrite seq_S, foldl_snoc. cbv zeta. simpl Nat.add.
    rewrite Z.lor_spec, IH, Z.shiftl_spec by lia.
    rewrite b2z_testbit.
    destruct (decide (j = n)) as [->|Hne].
    + replace (Z.of_nat n - Z.of_nat n)%Z with 0%Z by lia.
      rewrite Nat.ltb_irrefl. simpl.
      replace (n <? S n) with true by test_by_lia.
      by rewrite andb_true_r.
    + replace (Z.of_nat j - Z.of_nat n =? 0)%Z with false
        by test_by_lia.
      rewrite andb_false_r, orb_false_r. f_equal.
      destruct (Nat.ltb_spec j n), (Nat.ltb_spec j (S n)); lia || done.
Qed.

Lemma gpu_mask_get_testbit (mask : list Z) (pos : nat) :
  gpu_mask_get mask pos
  = Z.b2z (Z.testbit (mask !!! (pos / mask_bitsize)) (Z.of_nat (pos mod mask_bitsize))).
Proof.
  unfold gpu_mask_get.
  change 1%Z with (Z.ones 1). rewrite Z.land_ones by lia.
  rewrite Z.shiftr_div_pow2 by lia.
  rewrite Z.testbit_spec' by lia. done.
Qed.

Lemma gpu_mask_get_01 (mask : list Z) (pos : nat) :
  gpu_mask_get mask pos = 0%Z \/ gpu_mask_get mask pos = 1%Z.
Proof. rewrite gpu_mask_get_testbit. destruct (Z.testbit _ _); auto. Qed.

Lemma wrap_testbit (bits j : nat) (v : Z) :
  j < bits -> Z.testbit (wrap bits v) (Z.of_nat j) = Z.testbit v (Z.of_nat j).
Proof. intros Hj. unfold wrap. apply Z.mod_pow2_bits_low. lia. Qed.

Lemma gpu_set_mask_from_stride_frame (stride : Z) (tid : nat) (s : list Z) (j : nat) :
  j <> tid -> gpu_set_mask_from_stride stride tid s !! j = s !! j.
Proof.
  intros Hne. unfold gpu_set_mask_from_stride. cbv zeta.
  destruct (tid <? length s); [|done]. by rewrite list_lookup_insert_ne.
Qed.

Lemma gpu_set_mask_from_stride_own (stride : Z) (tid : nat) (s : list Z) :
  gpu_set_mask_from_stride stride tid s !! tid
  = (fun _ => wrap mask_bitsize (stride_bits stride (tid * mask_bitsize) mask_bitsize))
      <$> s !! tid.
Proof.
  unfold gpu_set_mask_from_stride. cbv zeta.
  destruct (Nat.ltb_spec tid (length s)) as [Hlt|Hge].
  - rewrite list_lookup_insert_eq by done.
    destruct (lookup_lt_is_Some_2 s tid Hlt) as [x ->]. done.
  - by rewrite lookup_ge_None_2.
Qed.

(** Every word of the generated mask is the packed word of its index. *)
Lemma set_mask_from_stride_word (mask : list Z) (stride : Z) (t : nat) :
  0 < threads_per_block ->
  t < length mask ->
  set_mask_from_stride mask stride !!! t
  = wrap mask_bitsize (stride_bits stride (t * mask_bitsize) mask_bitsize).
Proof.
  intros Hblock Ht. apply list_lookup_total_correct.
  unfold set_mask_from_stride, forall_launch. cbv zeta.
  rewrite (launch_pointwise _ _ (gpu_set_mask_from_stride_frame stride)
             (gpu_set_mask_from_stride_own stride)).
  pose proof (forall_threads_ge (length mask) Hblock).
  destruct (decide (t < forall_threads (length mask))); [|lia].
  destruct (lookup_lt_is_Some_2 mask t Ht) as [x ->]. done.
Qed.

Lemma stride_mask_get (mask : list Z) (stride : Z) (i : nat) :
  0 < mask_bitsize -> 0 < threads_per_block ->
  i < length mask * mask_bitsize ->
  gpu_mask_get (set_mask_from_stride mask stride) i
  = Z.b2z (Z.of_nat i mod stride =? 0)%Z.
Proof.
  intros Hbits Hblock Hi. rewrite gpu_mask_get_testbit.
  pose proof (Nat.div_mod_eq i mask_bitsize) as E.
  pose proof (Nat.mod_upper_bound i mask_bitsize) as B.
  rewrite set_mask_from_stride_word by (done || nia).
  rewrite wrap_testbit, stride_bits_testbit by lia.
  replace (i mod mask_bitsize <? mask_bitsize) with true
    by test_by_lia.
  simpl. do 3 f_equal. lia.
Qed.

Lemma div_between (a b q : Z) :
  (0 < b)%Z -> (b * q <= a < b * (q + 1))%Z -> (a / b)%Z = q.
Proof.
  intros Hb Hq. symmetry. apply (Z.div_unique a b q (a - b * q)); lia.
Qed.

Lemma ceil_div_succ (n s : Z) :
  (0 <= n)%Z -> (1 <= s)%Z ->
  ceil_div (n + 1) s
  = (ceil_div n s + if decide (n mod s = 0)%Z then 1 else 0)%Z.
Proof.
  intros Hn Hs. unfold ceil_div.
  pose proof (Z.div_mod n s ltac:(lia)) as E.
  pose proof (Z.mod_pos_bound n s ltac:(lia)) as B.
  rewrite (div_between (n + 1 + s - 1) s (n / s + 1)) by nia.
  case_decide.
  - rewrite (div_between (n + s - 1) s (n / s)) by nia. done.
  - rewrite (div_between (n + s - 1) s (n / s + 1)) by nia. lia.
Qed.

Lemma filter_seq_snoc (P : nat -> Prop) `{forall i, Decision (P i)} (n : nat) :
  filter P (seq 0 (S n))
  = filter P (seq 0 n) ++ (if decide (P n) then [n] else []).
Proof.
  rewrite seq_S, filter_app. done.
Qed.

(** The multiples of [s] below [n] are [ceil(n / s)] many. *)
Lemma count_multiples (P : nat -> Prop) `{forall i, Decision (P i)} (s : Z) (n : nat) :
  (1 <= s)%Z ->
  (forall i, i < n -> (P i <-> (Z.of_nat i mod s = 0)%Z)) ->
  Z.of_nat (length (filter P (seq 0 n))) = ceil_div (Z.of_nat n) s.
Proof.
  intros Hs. induction n as [|n IH]; intros HP.
  - simpl. unfold ceil_div. symmetry. apply Z.div_small. lia.
  - rewrite filter_seq_snoc, length_app, Nat2Z.inj_add, IH by (intros; apply HP; lia).
    replace (Z.of_nat (S n)) with (Z.of_nat n + 1)%Z by lia.
    rewrite ceil_div_succ by lia.
    specialize (HP n ltac:(lia)). destruct HP as [HP1 HP2].
    repeat case_decide; simpl; try lia; exfalso; auto.
Qed.

(** C7: after [set_mask_from_stride(mask, S)] with [S >= 1], bit [i] of the
    mask is set exactly when [i mod S = 0], and among the first [N] bits
    [ceil(N / S)] are set. *)
Theorem stride_mask_bits (mask : list Z) (S : Z) (N : nat) :
  0 < mask_bitsize -> 0 < threads_per_block ->
  (1 <= S)%Z -> N <= length mask * mask_bitsize ->
  (forall i, i < length mask * mask_bitsize ->
     (bit_set (set_mask_from_stride mask S) i <-> (Z.of_nat i mod S = 0)%Z)) /\
  Z.of_nat (count_valid (set_mask_from_stride mask S) N) = ceil_div (Z.of_nat N) S.
Proof.
  intros Hbits Hblock HS HN.
  assert (Hbit : forall i, i < length mask * mask_bitsize ->
     (bit_set (set_mask_from_stride mask S) i <-> (Z.of_nat i mod S = 0)%Z)).
  { intros i Hi. unfold bit_set. rewrite stride_mask_get by done.
    destruct (Z.eqb_spec (Z.of_nat i mod S) 0); simpl; split; intros; lia || done. }
  split; [done|].
  unfold count_valid, valid_indices. apply count_multiples; [done|].
  intros i Hi. apply Hbit. lia.
Qed.

(** ** Fill NA *)

Lemma length_device_array (site size : nat) : length (device_array site size) = size.
Proof. unfold device_array. by rewrite length_fmap, length_seq. Qed.

Lemma copy_to_device_all (dst src : list Z) :
  length dst = length src -> copy_to_device dst src = src.
Proof.
  intros E. unfold copy_to_device.
  rewrite take_ge, drop_ge by lia. apply app_nil_r.
Qed.

Lemma gpu_fill_masked_frame (dt : dtype) (value : Z) (validity : list Z) (tid : nat)
    (s : list Z) (j : nat) :
  j <> tid -> gpu_fill_masked dt value validity tid s !! j = s !! j.
Proof.
  intros Hne. unfold gpu_fill_masked. cbv zeta.
  destruct (tid <? length s); [|done].
  destruct (negb _); [|done]. by rewrite list_lookup_insert_ne.
Qed.

Lemma gpu_fill_masked_own (dt : dtype) (value : Z) (validity : list Z) (tid : nat)
    (s : list Z) :
  gpu_fill_masked dt value validity tid s !! tid
  = (fun x => if negb (truthy (gpu_mask_get validity tid)) then cast dt value else x)
      <$> s !! tid.
Proof.
  unfold gpu_fill_masked. cbv zeta.
  destruct (Nat.ltb_spec tid (length s)) as [Hlt|Hge].
  - destruct (lookup_lt_is_Some_2 s tid Hlt) as [x Hx].
    destruct (negb _).
    + rewrite list_lookup_insert_eq by done. by rewrite Hx.
    + by rewrite Hx.
  - by rewrite lookup_ge_None_2.
Qed.

Lemma gpu_fill_masked_length (dt : dtype) (value : Z) (validity : list Z) (tid : nat)
    (s : list Z) :
  length (gpu_fill_masked dt value validity tid s) = length s.
Proof.
  unfold gpu_fill_masked. cbv zeta.
  destruct (tid <? length s); [|done].
  destruct (negb _); [|done]. apply length_insert.
Qed.

Lemma fillna_lookup (dt : dtype) (data mask : list Z) (value : Z) (i : nat) :
  0 < threads_per_block ->
  fillna dt data mask value !! i
  = (fun x => if negb (truthy (gpu_mask_get mask i)) then cast dt value else x)
      <$> data !! i.
Proof.
  intros Hblock. unfold fillna, forall_launch, device_array_like. cbv zeta.
  rewrite copy_to_device_all by apply length_device_array.
  rewrite (launch_pointwise _ _ (gpu_fill_masked_frame dt value mask)
             (gpu_fill_masked_own dt value mask)).
  pose proof (forall_threads_ge (length data) Hblock).
  case_decide; [done|].
  by rewrite lookup_ge_None_2 by lia.
Qed.

(** C8: the result of [fillna(data, mask, v)] on a column of element type
    [dt] has the length of [data], keeps [data] at every position whose
    validity bit is set and holds [v] converted to [dt] at every position
    whose validity bit is unset: [v] itself when [dt] can hold [v]. *)
Theorem fillna_spec (dt : dtype) (data mask : list Z) (v : Z) :
  0 < threads_per_block ->
  length data <= length mask * mask_bitsize ->
  length (fillna dt data mask v) = length data /\
  forall i, i < length data ->
    (bit_set mask i -> fillna dt data mask v !! i = data !! i) /\
    (~ bit_set mask i -> fillna dt data mask v !! i = Some (cast dt v)) /\
    (~ bit_set mask i -> fits dt v -> fillna dt data mask v !! i = Some v).
Proof.
  intros Hblock Hcover. split.
  - unfold fillna, forall_launch, device_array_like. cbv zeta.
    rewrite (launch_length _ (gpu_fill_masked_length dt v mask)).
    rewrite copy_to_device_all by apply length_device_array. done.
  - intros i Hi. rewrite fillna_lookup by done.
    destruct (lookup_lt_is_Some_2 data i Hi) as [x ->]. unfold bit_set, truthy, fits.
    destruct (gpu_mask_get_01 mask i) as [E|E]; rewrite E; simpl.
    + split; [done|]. split; [done|]. intros _ Hfit. by rewrite Hfit.
    + split; [done|]. split; intros Hn; by destruct Hn.
Qed.

(** ** Compaction: rank assignment *)

(** The scan rewrites [data] into its running totals: when [C] follows
    the totals and they fit the 64-bit cells, cell [t] ends as [C t]. *)
Lemma gpu_prefixsum_spec (data : list Z) (initial : Z) (C : nat -> Z) :
  C 0 = initial ->
  (forall t, t < length data -> C (S t) = (C t + data !!! t)%Z) ->
  (forall t, t <= length data -> (0 <= C t < 2 ^ 64)%Z) ->
  gpu_prefixsum data initial = (C <$> seq 0 (length data), C (length data)).
Proof.
  intros H0 Hstep Hbound. unfold gpu_prefixsum.
  assert (Hk : forall k, k <= length data ->
    foldl (fun '(data, acc) i =>
             let tmp := data !!! i in (<[i := acc]> data, wrap 64 (acc + tmp)%Z))
          (data, initial) (seq 0 k)
    = ((C <$> seq 0 k) ++ drop k data, C k)).
  { induction k as [|k IH]; intros Hle.
    - simpl. by rewrite H0.
    - rewrite seq_S, foldl_snoc, IH by lia. simpl Nat.add. cbv zeta.
      assert (Hlen : length (C <$> seq 0 k) = k) by by rewrite length_fmap, length_seq.
      destruct (lookup_lt_is_Some_2 data k ltac:(lia)) as [x Hx].
      rewrite lookup_total_app_r by lia.
      rewrite insert_app_r_alt by lia.
      rewrite Hlen, Nat.sub_diag.
      rewrite (drop_S _ _ _ Hx). simpl.
      rewrite fmap_app, <- app_assoc. simpl.
      f_equal. unfold wrap.
      rewrite Hstep by lia. rewrite (list_lookup_total_correct _ _ _ Hx).
      apply Z.mod_small.
      specialize (Hbound (S k) Hle). rewrite Hstep in Hbound by lia.
      by rewrite (list_lookup_total_correct _ _ _ Hx) in Hbound. }
  rewrite Hk by lia. by rewrite drop_all, app_nil_r.
Qed.

Lemma lookup_fmap_seq {A} (f : nat -> A) (n i : nat) :
  i < n -> (f <$> seq 0 n) !! i = Some (f i).
Proof. intros Hi. by rewrite list_lookup_fmap, lookup_seq_lt. Qed.

Lemma lookup_total_fmap_seq (f : nat -> Z) (n i : nat) :
  i < n -> (f <$> seq 0 n) !!! i = f i.
Proof. intros Hi. apply list_lookup_total_correct. by apply lookup_fmap_seq. Qed.

Lemma rank_S (mask : list Z) (n : nat) :
  rank mask (S n) = (rank mask n + gpu_mask_get mask n)%Z.
Proof.
  unfold rank, count_valid, valid_indices.
  rewrite filter_seq_snoc, length_app, Nat2Z.inj_add. f_equal.
  unfold bit_set. destruct (gpu_mask_get_01 mask n) as [E|E]; rewrite E;
    case_decide; simpl; congruence || lia.
Qed.

Lemma rank_bounds (mask : list Z) (n : nat) : (0 <= rank mask n <= Z.of_nat n)%Z.
Proof.
  unfold rank, count_valid, valid_indices.
  pose proof (length_filter (bit_set mask) (seq 0 n)) as H.
  rewrite length_seq in H. lia.
Qed.

Lemma rank_mono (mask : list Z) (n m : nat) :
  n <= m -> (rank mask n <= rank mask m)%Z.
Proof.
  induction 1 as [|m Hle IH]; [lia|].
  rewrite rank_S. destruct (gpu_mask_get_01 mask m); lia.
Qed.

Lemma assign_slot_load_frame (mask : list Z) (size base tid : nat) (s : list Z) (j : nat) :
  j <> tid -> assign_slot_load mask size base tid s !! j = s !! j.
Proof.
  intros Hne. unfold assign_slot_load. cbv zeta.
  destruct (base + tid <? size); by rewrite !list_lookup_insert_ne.
Qed.

Lemma assign_slot_load_own (mask : list Z) (size base tid : nat) (s : list Z) :
  assign_slot_load mask size base tid s !! tid
  = (fun _ => if base + tid <? size then gpu_mask_get mask (base + tid) else 0%Z)
      <$> s !! tid.
Proof.
  unfold assign_slot_load. cbv zeta.
  destruct (decide (tid < length s)) as [Hlt|Hge].
  - destruct (lookup_lt_is_Some_2 s tid Hlt) as [x ->].
    destruct (base + tid <? size);
      by rewrite list_lookup_insert_eq by (rewrite ?length_insert; lia).
  - rewrite (lookup_ge_None_2 s) by lia.
    destruct (base + tid <? size);
      by rewrite lookup_ge_None_2 by (rewrite ?length_insert; lia).
Qed.

Lemma assign_slot_load_length (mask : list Z) (size base tid : nat) (s : list Z) :
  length (assign_slot_load mask size base tid s) = length s.
Proof.
  unfold assign_slot_load. cbv zeta.
  destruct (base + tid <? size); by rewrite !length_insert.
Qed.

Lemma assign_slot_store_length (sm : list Z) (size base tid : nat) (s : list Z) :
  length (assign_slot_store sm size base tid s) = length s.
Proof.
  unfold assign_slot_store. cbv zeta.
  destruct (base + tid <? size); by rewrite ?length_insert.
Qed.

(** The store phase writes [sm[i - base]] to the cells [i] of the chunk
    that lie below [size], and no other cell. *)
Lemma assign_slot_store_lookup (sm : list Z) (size base n : nat) (s : list Z) (i : nat) :
  launch n (assign_slot_store sm size base) s !! i
  = if decide (base <= i < base + n /\ i < size)
    then (fun _ => sm !!! (i - base)) <$> s !! i
    else s !! i.
Proof.
  unfold launch. induction n as [|n IH].
  - simpl. case_decide; [lia | done].
  - rewrite seq_S, foldl_snoc. simpl Nat.add.
    unfold assign_slot_store at 1. cbv zeta.
    destruct (Nat.ltb_spec (base + n) size) as [Hlt|Hge].
    + destruct (decide (i = base + n)) as [->|Hne].
      * replace (base + n - base) with n by lia.
        clear IH. case_decide; [|lia].
        match goal with |- <[_:=_]> ?l !! _ = _ =>
          assert (Hl : length l = length s)
            by apply (launch_length _ (assign_slot_store_length sm size base)) end.
        destruct (decide (base + n < length s)) as [Hin|Hout].
        -- rewrite list_lookup_insert_eq by lia.
           destruct (lookup_lt_is_Some_2 s _ Hin) as [x ->]. done.
        -- rewrite !lookup_ge_None_2 by (rewrite ?length_insert; lia). done.
      * rewrite list_lookup_insert_ne by done. rewrite IH.
        repeat case_decide; lia || done.
    + rewrite IH. repeat case_decide; lia || done.
Qed.

Lemma assign_slot_chunk_inv (mask : list Z) (N base : nat) (st : slot_state) :
  (Z.of_nat N < 2 ^ 64)%Z ->
  slot_inv mask N base st ->
  slot_inv mask N (base + 32) (assign_slot_chunk mask 32 st base).
Proof.
  intros HN (Hlen & Hpre & Hoff & Hslots).
  unfold assign_slot_chunk. rewrite Hlen. cbv zeta.
  set (F := fun t => if base + t <? N then gpu_mask_get mask (base + t) else 0%Z).
  set (C := fun t => rank mask ((base + t) `min` N)).
  set (loaded := launch 32 (assign_slot_load mask N base) (st_prefix st)).
  assert (Hloaded : length loaded = 33).
  { unfold loaded. by rewrite (launch_length _ (assign_slot_load_length mask N base)). }
  assert (Hload : take 32 loaded = F <$> seq 0 32).
  { apply list_eq. intros i. destruct (decide (i < 32)) as [Hi|Hi].
    - rewrite lookup_take_lt by done. unfold loaded.
      rewrite (launch_pointwise _ _ (assign_slot_load_frame mask N base)
                 (assign_slot_load_own mask N base)).
      case_decide; [|lia].
      destruct (lookup_lt_is_Some_2 (st_prefix st) i ltac:(lia)) as [x ->].
      by rewrite lookup_fmap_seq by done.
    - rewrite lookup_take_ge by lia. symmetry. apply lookup_ge_None_2.
      rewrite length_fmap, length_seq. lia. }
  assert (HC : forall t, (0 <= C t < 2 ^ 64)%Z).
  { intros t. unfold C. pose proof (rank_bounds mask ((base + t) `min` N)). lia. }
  rewrite Hload, (gpu_prefixsum_spec _ _ C).
  - rewrite length_fmap, length_seq. cbv beta iota.
    set (sm := <[32 := C 32]> ((C <$> seq 0 32) ++ drop 32 loaded)).
    assert (Hsm : length sm = 33).
    { unfold sm. rewrite length_insert, length_app, length_fmap, length_seq, length_drop. lia. }
    assert (Hsm_lo : forall t, t < 32 -> sm !!! t = C t).
    { intros t Ht. unfold sm. rewrite list_lookup_total_insert_ne by lia.
      rewrite lookup_total_app_l by (rewrite length_fmap, length_seq; lia).
      by apply lookup_total_fmap_seq. }
    assert (Hsm_hi : sm !!! 32 = C 32).
    { unfold sm. apply list_lookup_total_insert_eq.
      rewrite length_app, length_fmap, length_seq, length_drop. lia. }
    split; [|split; [|split]]; cbn [st_slots st_prefix st_offset].
    + by rewrite (launch_length _ (assign_slot_store_length sm N base)).
    + done.
    + rewrite Hsm_hi. done.
    + intros i Hi. rewrite assign_slot_store_lookup.
      case_decide as Hin.
      * destruct (lookup_lt_is_Some_2 (st_slots st) i ltac:(lia)) as [x ->]. simpl.
        rewrite Hsm_lo by lia. unfold C. do 2 f_equal. lia.
      * apply Hslots. lia.
  - unfold C. rewrite Hoff. do 2 f_equal. lia.
  - rewrite length_fmap, length_seq. intros t Ht.
    rewrite lookup_total_fmap_seq by done. unfold C, F.
    destruct (Nat.ltb_spec (base + t) N) as [Hlt|Hge].
    + replace ((base + S t) `min` N) with (S (base + t)) by lia.
      replace ((base + t) `min` N) with (base + t) by lia.
      apply rank_S.
    + replace ((base + S t) `min` N) with N by lia.
      replace ((base + t) `min` N) with N by lia. lia.
  - intros t _. apply HC.
Qed.

Lemma chunk_bases_cover (size blksz : nat) :
  0 < blksz -> size <= (size + blksz - 1) / blksz * blksz.
Proof.
  intros Hb.
  pose proof (Nat.div_mod_eq (size + blksz - 1) blksz) as E.
  pose proof (Nat.mod_upper_bound (size + blksz - 1) blksz) as B.
  nia.
Qed.

(** The slots after the kernel: each holds the rank of its position. *)
Lemma gpu_mask_assign_slot_rank (mask slots : list Z) :
  (Z.of_nat (length slots) < 2 ^ 64)%Z ->
  gpu_mask_assign_slot 32 mask slots = rank mask <$> seq 0 (length slots).
Proof.
  intros HN. unfold gpu_mask_assign_slot, chunk_bases. cbv zeta.
  set (N := length slots) in *.
  assert (Hall : forall c,
    slot_inv mask N (c * 32)
      (foldl (assign_slot_chunk mask 32) (SlotState slots (device_array 1 33) 0%Z)
             ((fun c => c * 32) <$> seq 0 c))).
  { induction c as [|c IH].
    - split; [|split; [|split]]; cbn [st_slots st_prefix st_offset].
      + done.
      + apply length_device_array.
      + done.
      + intros i Hi. lia.
    - rewrite seq_S, fmap_snoc, foldl_snoc. change (0 + c) with c.
      replace (S c * 32) with (c * 32 + 32) by lia.
      apply assign_slot_chunk_inv; [done|]. apply IH. }
  destruct (Hall ((N + 32 - 1) / 32)) as (Hlen & _ & _ & Hslots).
  pose proof (chunk_bases_cover N 32 ltac:(lia)) as Hcover.
  apply list_eq. intros i. destruct (decide (i < N)) as [Hi|Hi].
  - rewrite Hslots by lia. by rewrite lookup_fmap_seq.
  - rewrite !lookup_ge_None_2; [done | rewrite length_fmap, length_seq; lia | lia].
Qed.

(** C6: after [gpu_mask_assign_slot[1, 32]] the slot of every position
    [i], valid or not, is the number of positions below [i] whose validity
    bit is set; hence the slots never decrease. *)
Theorem assign_slot_rank (mask slots : list Z) :
  (Z.of_nat (length slots) < 2 ^ 64)%Z ->
  length slots <= length mask * mask_bitsize ->
  (forall i, i < length slots ->
     gpu_mask_assign_slot 32 mask slots !! i
     = Some (Z.of_nat (length (filter (bit_set mask) (seq 0 i))))) /\
  (forall i j x y, i <= j ->
     gpu_mask_assign_slot 32 mask slots !! i = Some x ->
     gpu_mask_assign_slot 32 mask slots !! j = Some y ->
     (x <= y)%Z).
Proof.
  intros HN Hcover. rewrite gpu_mask_assign_slot_rank by done. split.
  - intros i Hi. by rewrite lookup_fmap_seq.
  - intros i j x y Hij Hx Hy.
    assert (Hj : j < length slots).
    { apply lookup_lt_Some in Hy. by rewrite length_fmap, length_seq in Hy. }
    rewrite lookup_fmap_seq in Hx, Hy by lia.
    injection Hx as <-. injection Hy as <-. by apply rank_mono.
Qed.

(** ** Compaction: gather and count *)

Lemma truthy_bit_set (mask : list Z) (i : nat) :
  truthy (gpu_mask_get mask i) = bool_decide (bit_set mask i).
Proof.
  unfold truthy. destruct (decide (bit_set mask i)) as [H|H].
  - rewrite bool_decide_eq_true_2 by done. unfold bit_set in H. by rewrite H.
  - rewrite bool_decide_eq_false_2 by done. unfold bit_set in H.
    destruct (gpu_mask_get_01 mask i) as [E|E]; [by rewrite E | done].
Qed.

Lemma valid_indices_S (mask : list Z) (n : nat) :
  valid_indices mask (S n)
  = valid_indices mask n ++ (if decide (bit_set mask n) then [n] else []).
Proof. apply filter_seq_snoc. Qed.

(** After the first [T] threads of the gather the output starts with the
    valid elements below [T]; the cells behind them are untouched. *)
Lemma gather_prefix (data mask out : list Z) (T : nat) :
  count_valid mask (T `min` length data) <= length out ->
  launch T (gpu_copy_to_dense data mask (rank mask <$> seq 0 (length data))) out
  = ((fun i => data !!! i) <$> valid_indices mask (T `min` length data))
    ++ drop (count_valid mask (T `min` length data)) out.
Proof.
  unfold launch. induction T as [|T IH]; intros Hroom.
  - simpl. by rewrite drop_0.
  - rewrite seq_S, foldl_snoc. simpl Nat.add.
    unfold gpu_copy_to_dense at 1. cbv zeta.
    destruct (Nat.ltb_spec T (length data)) as [Hlt|Hge]; cbn [andb].
    + replace (S T `min` length data) with (S (T `min` length data)) in * by lia.
      replace (T `min` length data) with T in * by lia.
      unfold count_valid in *. rewrite valid_indices_S in *.
      rewrite length_app in Hroom. rewrite IH by lia.
      rewrite truthy_bit_set. destruct (decide (bit_set mask T)) as [Hv|Hv].
      * rewrite bool_decide_eq_true_2 by done.
        rewrite lookup_total_fmap_seq by done. unfold rank, count_valid.
        rewrite Nat2Z.id. simpl in Hroom.
        rewrite insert_app_r_alt by (rewrite length_fmap; lia).
        rewrite length_fmap, Nat.sub_diag.
        destruct (lookup_lt_is_Some_2 out (length (valid_indices mask T)) ltac:(lia))
          as [x Hx].
        rewrite (drop_S _ _ _ Hx). simpl.
        rewrite fmap_app, length_app, <- app_assoc. simpl.
        by rewrite Nat.add_1_r.
      * rewrite bool_decide_eq_false_2 by done.
        by rewrite app_nil_r.
    + replace (S T `min` length data) with (T `min` length data) in * by lia.
      by apply IH.
Qed.

(** What [copy_to_dense] returns for a column with elements when it
    allocates the output: the size is one more than the rank of the last
    position, and the output starts with the valid elements. *)
Lemma copy_to_dense_alloc (data mask : list Z) :
  0 < threads_per_block ->
  0 < length data ->
  (Z.of_nat (length data) < 2 ^ 64)%Z ->
  copy_to_dense data mask None
  = Some (Ok ((rank mask (length data - 1) + 1)%Z,
              dense data mask
              ++ drop (count_valid mask (length data))
                      (device_array 2 (Z.to_nat (rank mask (length data - 1) + 1))))).
Proof.
  intros Hblock Hpos HN. unfold copy_to_dense. cbv zeta.
  rewrite gpu_mask_assign_slot_rank by by rewrite length_device_array.
  rewrite length_device_array.
  rewrite last_lookup, length_fmap, length_seq.
  rewrite lookup_fmap_seq by lia.
  replace (Init.Nat.pred (length data)) with (length data - 1) by lia.
  pose proof (rank_bounds mask (length data - 1)) as Hr.
  pose proof (rank_S mask (length data - 1)) as HS.
  replace (S (length data - 1)) with (length data) in HS by lia.
  destruct (gpu_mask_get_01 mask (length data - 1)) as [E|E]; rewrite E in HS.
  all: unfold wrap; rewrite Z.mod_small by lia.
  all: unfold forall_launch; pose proof (forall_threads_ge (length data) Hblock) as Hge.
  all: rewrite gather_prefix;
    replace (forall_threads (length data) `min` length data) with (length data) by lia;
    [done | rewrite length_device_array; unfold rank in *; lia].
Qed.

(** With a valid last element the count is the number of valid elements
    and the output is the dense column. *)
Lemma copy_to_dense_last_valid (data mask : list Z) :
  0 < threads_per_block ->
  0 < length data ->
  (Z.of_nat (length data) < 2 ^ 64)%Z ->
  bit_set mask (length data - 1) ->
  copy_to_dense data mask None
  = Some (Ok (Z.of_nat (count_valid mask (length data)), dense data mask)).
Proof.
  intros Hblock Hpos HN Hlast. rewrite copy_to_dense_alloc by done.
  pose proof (rank_S mask (length data - 1)) as HS.
  replace (S (length data - 1)) with (length data) in HS by lia.
  unfold bit_set in Hlast. rewrite Hlast in HS. rewrite <- HS.
  unfold rank. rewrite Nat2Z.id.
  rewrite drop_ge by by rewrite length_device_array. by rewrite app_nil_r.
Qed.

(** With an invalid last element the count is one too many, and the
    output ends with a cell that was never written. *)
Lemma copy_to_dense_last_invalid (data mask : list Z) :
  0 < threads_per_block ->
  0 < length data ->
  (Z.of_nat (length data) < 2 ^ 64)%Z ->
  ~ bit_set mask (length data - 1) ->
  copy_to_dense data mask None
  = Some (Ok ((Z.of_nat (count_valid mask (length data)) + 1)%Z,
              dense data mask ++ [stale 2 (count_valid mask (length data))])).
Proof.
  intros Hblock Hpos HN Hlast. rewrite copy_to_dense_alloc by done.
  pose proof (rank_S mask (length data - 1)) as HS.
  replace (S (length data - 1)) with (length data) in HS by lia.
  unfold bit_set in Hlast.
  destruct (gpu_mask_get_01 mask (length data - 1)) as [E|E]; [|done].
  rewrite E, Z.add_0_r in HS. rewrite <- HS. unfold rank.
  replace (Z.to_nat (Z.of_nat (count_valid mask (length data)) + 1))
    with (S (count_valid mask (length data))) by lia.
  unfold device_array. rewrite seq_S, fmap_app. simpl.
  rewrite drop_app_length'; [done | by rewrite length_fmap, length_seq].
Qed.

(** A supplied output is refused exactly when its size is at most one
    more than the rank of the last position. *)
Lemma copy_to_dense_refuses (data mask out : list Z) :
  0 < length data ->
  (Z.of_nat (length data) < 2 ^ 64)%Z ->
  copy_to_dense data mask (Some out) = Some (Raise ValueError)
  <-> (Z.of_nat (length out) <= rank mask (length data - 1) + 1)%Z.
Proof.
  intros Hpos HN. unfold copy_to_dense. cbv zeta.
  rewrite gpu_mask_assign_slot_rank by by rewrite length_device_array.
  rewrite length_device_array.
  rewrite last_lookup, length_fmap, length_seq.
  rewrite lookup_fmap_seq by lia.
  replace (Init.Nat.pred (length data)) with (length data - 1) by lia.
  pose proof (rank_bounds mask (length data - 1)) as Hr.
  unfold wrap. rewrite Z.mod_small by lia.
  rewrite Z.geb_leb.
  destruct (Z.leb_spec (Z.of_nat (length out)) (rank mask (length data - 1) + 1)).
  - done.
  - split; [done | lia].
Qed.

(** ** Reductions *)

Lemma copy_array_fresh (h : heap) (arr : nat) (buf : list Z) :
  h !! arr = Some buf ->
  copy_array arr h = Some (length h, h ++ [buf]).
Proof.
  intros Harr. unfold copy_array, dev_bind, dev_read, dev_alloc, dev_write, dev_ret.
  rewrite Harr. cbv beta iota.
  rewrite lookup_app_r, Nat.sub_diag by lia. cbn [lookup list_lookup]. cbv beta iota.
  rewrite length_device_array, Nat.eqb_refl. cbn [negb]. cbv beta iota.
  rewrite length_app. cbn [length].
  replace (length h <? length h + 1) with true by test_by_lia.
  cbv beta iota.
  rewrite copy_to_device_all by apply length_device_array.
  rewrite insert_app_r_alt, Nat.sub_diag by lia. done.
Qed.

Lemma gpu_reduce_run (op : Z -> Z -> Z) (h : heap) (arr : nat) (buf : list Z) (init : Z) :
  h !! arr = Some buf ->
  gpu_reduce op arr init h
  = Some (foldl op init buf, <[arr := consumed buf <$> seq 0 (length buf)]> h).
Proof.
  intros Harr. unfold gpu_reduce, dev_bind, dev_read, dev_write, dev_ret.
  rewrite Harr. cbv beta iota.
  replace (arr <? length h) with true
    by (symmetry; apply Nat.ltb_lt; by eapply lookup_lt_Some).
  done.
Qed.

(** Without the in-place flag the reduction runs on a fresh copy, which
    is the buffer it consumes. *)
Lemma run_reduction_copy (op : Z -> Z -> Z) (h : heap) (arr : nat) (buf : list Z)
    (init : option Z) (inplace : option bool) :
  h !! arr = Some buf ->
  default false inplace = false ->
  _run_reduction (gpu_reduce op) arr init inplace h
  = Some (foldl op (default 0%Z init) buf,
          h ++ [consumed buf <$> seq 0 (length buf)]).
Proof.
  intros Harr Hflag. unfold _run_reduction. cbv zeta. rewrite Hflag. cbn [negb].
  unfold dev_bind at 1. rewrite (copy_array_fresh h arr buf Harr).
  rewrite (gpu_reduce_run op _ _ buf).
  - by rewrite insert_app_r_alt, Nat.sub_diag by lia.
  - by rewrite lookup_app_r, Nat.sub_diag by lia.
Qed.

(** With the flag the reduction consumes the input itself. *)
Lemma run_reduction_inplace (op : Z -> Z -> Z) (h : heap) (arr : nat) (buf : list Z)
    (init : option Z) :
  h !! arr = Some buf ->
  _run_reduction (gpu_reduce op) arr init (Some true) h
  = Some (foldl op (default 0%Z init) buf,
          <[arr := consumed buf <$> seq 0 (length buf)]> h).
Proof.
  intros Harr. unfold _run_reduction. cbv zeta. cbn [default negb].
  unfold dev_bind at 1, dev_ret. by apply gpu_reduce_run.
Qed.

(** The sum of a column of one element is the element, which its
    element type holds. *)
Lemma compute_sum_singleton (dt : dtype) (x : Z) (inplace : option bool) :
  fits dt x ->
  fst <$> compute_sum dt 0 inplace [[x]] = Some x.
Proof.
  unfold fits. intros Hfit. unfold compute_sum, gpu_sum.
  destruct inplace as [[|]|].
  - rewrite (run_reduction_inplace _ [[x]] 0 [x]) by done.
    cbn [foldl default]. by rewrite Z.add_0_l, Hfit.
  - rewrite (run_reduction_copy _ [[x]] 0 [x]) by done.
    cbn [foldl default]. by rewrite Z.add_0_l, Hfit.
  - rewrite (run_reduction_copy _ [[x]] 0 [x]) by done.
    cbn [foldl default]. by rewrite Z.add_0_l, Hfit.
Qed.

(** The minimum and maximum start from [init = 0]: of a column of one
    element they return the element clamped at 0. *)
Lemma compute_min_max_singleton (x : Z) (inplace : option bool) :
  fst <$> compute_min 0 inplace [[x]] = Some (0 `min` x)%Z /\
  fst <$> compute_max 0 inplace [[x]] = Some (0 `max` x)%Z.
Proof.
  unfold compute_min, compute_max, gpu_min, gpu_max.
  destruct inplace as [[|]|].
  - by rewrite !(run_reduction_inplace _ [[x]] 0 [x]).
  - by rewrite !(run_reduction_copy _ [[x]] 0 [x]).
  - by rewrite !(run_reduction_copy _ [[x]] 0 [x]).
Qed.

(** The sum of a column, taken in the element type [dt]. *)
Lemma compute_sum_copy (dt : dtype) (h : heap) (arr : nat) (buf : list Z)
    (inplace : option bool) :
  h !! arr = Some buf ->
  default false inplace = false ->
  compute_sum dt arr inplace h
  = Some (foldl (fun x y => cast dt (x + y)%Z) 0%Z buf,
          h ++ [consumed buf <$> seq 0 (length buf)]).
Proof.
  intros Harr Hflag. unfold compute_sum, gpu_sum.
  by rewrite (run_reduction_copy _ h arr buf).
Qed.

(** The mean of a column: the sum over the size, and an exception for a
    column without elements, after the sum was taken on the copy. *)
Lemma compute_mean_copy (dt : dtype) (h : heap) (arr : nat) (buf : list Z)
    (inplace : option bool) :
  h !! arr = Some buf ->
  default false inplace = false ->
  compute_mean dt arr inplace h
  = Some (if length buf =? 0 then Raise ZeroDivisionError
          else Ok (foldl (fun x y => cast dt (x + y)%Z) 0%Z buf, length buf),
          h ++ [consumed buf <$> seq 0 (length buf)]).
Proof.
  intros Harr Hflag. unfold compute_mean. unfold dev_bind at 1.
  rewrite (compute_sum_copy dt h arr buf inplace Harr Hflag).
  unfold dev_bind, dev_read, dev_ret.
  rewrite (lookup_app_l_Some _ _ _ _ Harr).
  by destruct (length buf =? 0).
Qed.

(** C9: when the in-place flag is not set, [compute_mean] and the
    reductions [compute_sum], [compute_min], [compute_max] leave every
    buffer of the device as it was, the input among them: the reduction
    consumes a fresh copy, which is the one buffer added.  This holds
    whatever the call returns, also when the mean of a column without
    elements raises. *)
Theorem reductions_keep_input (dt : dtype) (h : heap) (arr : nat) (buf : list Z)
    (inplace : option bool) :
  h !! arr = Some buf ->
  default false inplace = false ->
  exists (h' : heap) (m : result (Z * nat)) (s lo hi : Z),
    h' = h ++ [consumed buf <$> seq 0 (length buf)] /\
    h' !! arr = Some buf /\
    (forall p b, h !! p = Some b -> h' !! p = Some b) /\
    compute_mean dt arr inplace h = Some (m, h') /\
    compute_sum dt arr inplace h = Some (s, h') /\
    compute_min arr inplace h = Some (lo, h') /\
    compute_max arr inplace h = Some (hi, h').
Proof.
  intros Harr Hflag.
  assert (Hkeep : forall p b, h !! p = Some b ->
            (h ++ [consumed buf <$> seq 0 (length buf)]) !! p = Some b).
  { intros p b Hp. by apply lookup_app_l_Some. }
  eexists _, _, _, _, _. split; [reflexivity|].
  split; [by apply Hkeep|]. split; [done|]. split; [|split; [|split]].
  - by apply compute_mean_copy.
  - by apply compute_sum_copy.
  - unfold compute_min, gpu_min. by rewrite (run_reduction_copy _ h arr buf).
  - unfold compute_max, gpu_max. by rewrite (run_reduction_copy _ h arr buf).
Qed.

(** ** Unique values *)

Lemma vset_scan_spec (vset : list Z) (val : Z) (n i : nat) :
  i + n <= length vset ->
  vset_scan vset val i n = true <-> val ∈ take n (drop i vset).
Proof.
  revert i. induction n as [|n IH]; intros i Hle.
  - simpl. rewrite take_0. split; [done | by intros ?%elem_of_nil].
  - destruct (lookup_lt_is_Some_2 vset i ltac:(lia)) as [x Hx].
    rewrite (drop_S _ _ _ Hx). cbn [vset_scan take].
    rewrite (list_lookup_total_correct _ _ _ Hx), elem_of_cons.
    destruct (Z.eqb_spec x val) as [->|Hne].
    + split; auto.
    + rewrite IH by lia. split; [auto | intros [?|?]; congruence || done].
Qed.

Lemma vset_scan_seen (vset : list Z) (sz : Z) (seen : list Z) (val : Z) :
  holds_set vset sz seen ->
  vset_scan vset val 0 (Z.to_nat sz) = true <-> val ∈ seen.
Proof.
  intros (-> & Hle & Htake). rewrite Nat2Z.id.
  rewrite vset_scan_spec by lia. by rewrite drop_0, Htake.
Qed.

(** An insertion with room left is a step of the list-level set. *)
Lemma gpu_unique_set_insert_step (vset : list Z) (sz : Z) (seen : list Z) (val : Z) :
  holds_set vset sz seen ->
  length seen < length vset ->
  exists vset' sz',
    gpu_unique_set_insert vset sz val = (vset', sz') /\
    (0 <= sz')%Z /\
    length vset' = length vset /\
    holds_set vset' sz' (dedup_step seen val).
Proof.
  intros Hset Hroom. pose proof Hset as (Hsz & Hle & Htake).
  unfold gpu_unique_set_insert, dedup_step.
  pose proof (vset_scan_seen vset sz seen val Hset) as Hscan.
  destruct (vset_scan vset val 0 (Z.to_nat sz)).
  - rewrite decide_True by by apply Hscan.
    exists vset, sz. repeat split; try done; lia.
  - rewrite decide_False by (intros Hin; apply Hscan in Hin; done).
    cbv zeta.
    assert (Hi : (if (sz >? 0)%Z then (sz - 1 + 1)%Z else 0%Z) = sz).
    { destruct (Z.gtb_spec sz 0); lia. }
    rewrite Hi.
    replace (sz <? Z.of_nat (length vset))%Z with true
      by test_by_lia.
    exists (<[Z.to_nat sz := val]> vset), (sz + 1)%Z.
    rewrite Hsz, Nat2Z.id. repeat split.
    + lia.
    + apply length_insert.
    + rewrite length_app. simpl. lia.
    + rewrite length_app, length_insert. simpl. lia.
    + rewrite length_app. simpl. rewrite Nat.add_1_r.
      rewrite (take_S_r _ _ val) by by apply list_lookup_insert_eq.
      by rewrite take_insert_ge, Htake by lia.
Qed.

Lemma dedup_step_elem (seen : list Z) (val v : Z) :
  v ∈ dedup_step seen val <-> v ∈ seen \/ v = val.
Proof.
  unfold dedup_step. case_decide.
  - split; [auto | intros [?| ->]; done].
  - rewrite elem_of_app, list_elem_of_singleton. done.
Qed.

Lemma dedup_step_NoDup (seen : list Z) (val : Z) :
  NoDup seen -> NoDup (dedup_step seen val).
Proof.
  intros Hnd. unfold dedup_step. case_decide; [done|].
  apply NoDup_app. split; [done|]. split.
  - intros x Hx ->%list_elem_of_singleton. done.
  - apply NoDup_singleton.
Qed.

Lemma dedup_step_length (seen : list Z) (val : Z) :
  length seen <= length (dedup_step seen val).
Proof. unfold dedup_step. case_decide; [done|]. rewrite length_app. lia. Qed.

Lemma dedup_from_snoc (seen l : list Z) (val : Z) :
  dedup_from seen (l ++ [val]) = dedup_step (dedup_from seen l) val.
Proof. apply foldl_snoc. Qed.

Lemma dedup_from_app (seen l1 l2 : list Z) :
  dedup_from seen (l1 ++ l2) = dedup_from (dedup_from seen l1) l2.
Proof. apply foldl_app. Qed.

Lemma dedup_from_elem (seen l : list Z) (v : Z) :
  v ∈ dedup_from seen l <-> v ∈ seen \/ v ∈ l.
Proof.
  induction l as [|x l IH] using rev_ind.
  - simpl. split; [auto | intros [?|?%elem_of_nil]; done].
  - rewrite dedup_from_snoc, dedup_step_elem, IH, elem_of_app, list_elem_of_singleton.
    split; [intros [[?|?]|?] | intros [?|[?|?]]]; auto.
Qed.

Lemma dedup_from_NoDup (seen l : list Z) :
  NoDup seen -> NoDup (dedup_from seen l).
Proof.
  intros Hnd. induction l as [|x l IH] using rev_ind; [done|].
  rewrite dedup_from_snoc. by apply dedup_step_NoDup.
Qed.

Lemma dedup_from_length (seen l : list Z) :
  length seen <= length (dedup_from seen l).
Proof.
  induction l as [|x l IH] using rev_ind; [done|].
  rewrite dedup_from_snoc. pose proof (dedup_step_length (dedup_from seen l) x). lia.
Qed.

(** A duplicate-free list of values of [data] is no longer than the
    number of distinct values of [data]; at that length it has them all. *)
Lemma distinct_count_bound (data seen : list Z) :
  NoDup seen -> (forall v, v ∈ seen -> v ∈ data) ->
  length seen <= distinct_count data.
Proof.
  intros Hnd Hsub. unfold distinct_count. apply submseteq_length.
  apply NoDup_submseteq; [done|]. intros v Hv. apply elem_of_remove_dups. auto.
Qed.

Lemma distinct_count_full (data seen : list Z) :
  NoDup seen -> (forall v, v ∈ seen -> v ∈ data) ->
  distinct_count data <= length seen ->
  forall v, v ∈ data -> v ∈ seen.
Proof.
  intros Hnd Hsub Hlen v Hv.
  assert (Hperm : seen ≡ₚ remove_dups data).
  { apply submseteq_length_Permutation; [|done].
    apply NoDup_submseteq; [done|]. intros x Hx. apply elem_of_remove_dups. auto. }
  rewrite Hperm. by apply elem_of_remove_dups.
Qed.

Lemma distinct_count_le (data : list Z) : distinct_count data <= length data.
Proof.
  unfold distinct_count. apply submseteq_length, NoDup_submseteq.
  - apply NoDup_remove_dups.
  - intros v. by rewrite elem_of_remove_dups.
Qed.

(** Thread 0 inserts the first [m] loaded values. *)
Lemma unique_insert_all (loaded : list Z) (sm_mem_size : Z) (m : nat)
    (vset : list Z) (sz : Z) (seen : list Z) :
  holds_set vset sz seen ->
  m <= length loaded ->
  length (dedup_from seen (take m loaded)) < length vset ->
  exists vset' sz',
    foldl (unique_insert loaded sm_mem_size) (vset, sz) (seq 0 m) = (vset', sz') /\
    length vset' = length vset /\
    holds_set vset' sz' (dedup_from seen (take m loaded)).
Proof.
  intros Hset. induction m as [|m IH]; intros Hm Hroom.
  - exists vset, sz. rewrite take_0. split; [done|]. split; [done|]. exact Hset.
  - destruct (lookup_lt_is_Some_2 loaded m ltac:(lia)) as [val Hval].
    rewrite (take_S_r _ _ _ Hval), dedup_from_snoc in Hroom |- *.
    pose proof (dedup_step_length (dedup_from seen (take m loaded)) val) as Hmono.
    destruct IH as (vset1 & sz1 & Hfold & Hlen1 & Hset1); [lia | lia |].
    rewrite seq_S, foldl_snoc, Hfold. simpl Nat.add.
    destruct (gpu_unique_set_insert_step vset1 sz1 _ val Hset1 ltac:(lia))
      as (vset2 & sz2 & Hins & Hpos & Hlen2 & Hset2).
    exists vset2, sz2. unfold unique_insert.
    rewrite (list_lookup_total_correct _ _ _ Hval), Hins.
    replace (sz2 >=? 0)%Z with true by test_by_lia.
    repeat split; try apply Hset2. congruence.
Qed.

Lemma unique_load_frame (arr : list Z) (base valid_load tid : nat) (s : list Z) (j : nat) :
  j <> tid -> unique_load arr base valid_load tid s !! j = s !! j.
Proof.
  intros Hne. unfold unique_load. cbv zeta.
  destruct (tid <? valid_load); [|done]. by rewrite list_lookup_insert_ne.
Qed.

Lemma unique_load_own (arr : list Z) (base valid_load tid : nat) (s : list Z) :
  unique_load arr base valid_load tid s !! tid
  = (fun x => if tid <? valid_load then arr !!! (base + tid) else x) <$> s !! tid.
Proof.
  unfold unique_load. cbv zeta.
  destruct (tid <? valid_load); [|by destruct (s !! tid)].
  destruct (decide (tid < length s)) as [Hlt|Hge].
  - rewrite list_lookup_insert_eq by done.
    by destruct (lookup_lt_is_Some_2 s tid Hlt) as [x ->].
  - by rewrite !lookup_ge_None_2 by (rewrite ?length_insert; lia).
Qed.

Lemma unique_load_length (arr : list Z) (base valid_load tid : nat) (s : list Z) :
  length (unique_load arr base valid_load tid s) = length s.
Proof.
  unfold unique_load. cbv zeta.
  destruct (tid <? valid_load); [|done]. apply length_insert.
Qed.

Lemma max_fast_unique_k_block : 64 <= Z.to_nat MAX_FAST_UNIQUE_K.
Proof. unfold MAX_FAST_UNIQUE_K. lia. Qed.

(** After the load phase the first [valid_load] cells hold the chunk. *)
Lemma unique_load_chunk (arr loaded : list Z) (base : nat) :
  64 <= length loaded ->
  take (64 `min` (length arr - base))
       (launch 64 (unique_load arr base (64 `min` (length arr - base))) loaded)
  = take 64 (drop base arr).
Proof.
  intros Hlen. set (valid_load := 64 `min` (length arr - base)).
  apply list_eq. intros i. destruct (decide (i < valid_load)) as [Hi|Hi].
  - rewrite !lookup_take_lt by lia.
    rewrite (launch_pointwise _ _ (unique_load_frame arr base valid_load)
               (unique_load_own arr base valid_load)).
    case_decide; [|lia].
    destruct (lookup_lt_is_Some_2 loaded i ltac:(lia)) as [x ->]. simpl.
    replace (i <? valid_load) with true by test_by_lia.
    rewrite lookup_drop.
    destruct (lookup_lt_is_Some_2 arr (base + i) ltac:(lia)) as [y Hy].
    by rewrite Hy, (list_lookup_total_correct _ _ _ Hy).
  - rewrite lookup_take_ge by lia. symmetry.
    destruct (decide (i < 64)).
    + rewrite lookup_take_lt, lookup_drop by done. apply lookup_ge_None_2. lia.
    + apply lookup_take_ge. lia.
Qed.

Lemma dedup_prefix_bound (arr : list Z) (n : nat) :
  length (dedup_from [] (take n arr)) <= distinct_count arr.
Proof.
  apply distinct_count_bound.
  - apply dedup_from_NoDup, NoDup_nil_2.
  - intros v [Hv%elem_of_nil|Hv]%dedup_from_elem; [done|].
    apply elem_of_take in Hv as (i & Hi & _). by eapply list_elem_of_lookup_2.
Qed.

Lemma unique_chunk_base (arr : list Z) (sm_mem_size : Z) (blksz : nat) (st : unique_state) :
  us_base (unique_chunk arr sm_mem_size blksz st) = us_base st + blksz.
Proof. unfold unique_chunk. cbv zeta. by destruct (foldl _ _ _). Qed.

Lemma unique_chunk_inv (arr : list Z) (sm_mem_size : Z) (st : unique_state) :
  distinct_count arr < Z.to_nat MAX_FAST_UNIQUE_K ->
  unique_inv arr st ->
  unique_inv arr (unique_chunk arr sm_mem_size 64 st).
Proof.
  intros Hu (Hvset & Hloaded & Hset).
  pose proof max_fast_unique_k_block as Hblock.
  unfold unique_chunk. cbv zeta.
  set (base := us_base st) in *.
  set (valid_load := 64 `min` (length arr - base)).
  set (loaded := launch 64 (unique_load arr base valid_load) (us_loaded st)).
  assert (Hlen : length loaded = Z.to_nat MAX_FAST_UNIQUE_K).
  { unfold loaded. by rewrite (launch_length _ (unique_load_length arr base valid_load)). }
  assert (Hchunk : dedup_from (dedup_from [] (take base arr)) (take valid_load loaded)
                   = dedup_from [] (take (base + 64) arr)).
  { unfold loaded, valid_load. rewrite unique_load_chunk by lia.
    by rewrite <- dedup_from_app, take_take_drop. }
  destruct (unique_insert_all loaded sm_mem_size valid_load _ _ _ Hset)
    as (vset' & sz' & Hfold & Hlen' & Hset').
  - lia.
  - rewrite Hchunk. pose proof (dedup_prefix_bound arr (base + 64)). lia.
  - rewrite Hfold. split; [|split]; cbn [us_vset us_loaded us_vset_size us_base].
    + congruence.
    + done.
    + by rewrite <- Hchunk.
Qed.

(** The [while] loop ends within the fuel, and then either the set has
    reached [sm_mem_size] or the whole input has been read. *)
Lemma unique_loop_runs (arr : list Z) (sm_mem_size : Z) (fuel : nat) (st : unique_state) :
  distinct_count arr < Z.to_nat MAX_FAST_UNIQUE_K ->
  unique_inv arr st ->
  length arr - us_base st < fuel ->
  exists st',
    unique_loop fuel arr sm_mem_size 64 st = Some st' /\
    unique_inv arr st' /\
    ((sm_mem_size <= us_vset_size st')%Z \/ length arr <= us_base st').
Proof.
  intros Hu. revert st. induction fuel as [|fuel IH]; intros st Hinv Hfuel; [lia|].
  cbn [unique_loop].
  destruct (Z.ltb_spec (us_vset_size st) sm_mem_size) as [Hsz|Hsz]; cbn [andb].
  - destruct (Nat.ltb_spec (us_base st) (length arr)) as [Hbase|Hbase].
    + apply IH.
      * by apply unique_chunk_inv.
      * rewrite unique_chunk_base. lia.
    + exists st. auto.
  - exists st. auto.
Qed.

Lemma elem_of_strided_range (tid stop step j : nat) :
  tid < step ->
  j ∈ strided_range tid stop step <-> j < stop /\ j mod step = tid.
Proof.
  intros Htid. unfold strided_range. rewrite list_elem_of_fmap.
  pose proof (Nat.div_mod_eq (stop - tid + step - 1) step) as E.
  pose proof (Nat.mod_upper_bound (stop - tid + step - 1) step ltac:(lia)) as B.
  split.
  - intros (q & -> & Hq%elem_of_seq). split; [nia|].
    rewrite Nat.Div0.mod_add. by apply Nat.mod_small.
  - intros (Hj & Hmod). exists (j / step).
    pose proof (Nat.div_mod_eq j step) as Ej.
    split; [lia|]. apply elem_of_seq. nia.
Qed.

Lemma foldl_store_length (f : nat -> Z) (idx : list nat) (out : list Z) :
  length (foldl (fun out i => <[i := f i]> out) out idx) = length out.
Proof.
  induction idx as [|x idx IH] using rev_ind; [done|].
  by rewrite foldl_snoc, length_insert.
Qed.

(** Stores [out[i] = f i] over a list of indices, in any order and with
    repetitions: the cells named in the list change. *)
Lemma foldl_store_lookup (f : nat -> Z) (idx : list nat) (out : list Z) (j : nat) :
  foldl (fun out i => <[i := f i]> out) out idx !! j
  = if decide (j ∈ idx) then (fun _ => f j) <$> out !! j else out !! j.
Proof.
  induction idx as [|x idx IH] using rev_ind.
  - destruct (decide (j ∈ [])) as [H%elem_of_nil|]; done.
  - rewrite foldl_snoc. destruct (decide (j = x)) as [->|Hne].
    + rewrite decide_True by (apply elem_of_app; right; by apply list_elem_of_singleton).
      destruct (decide (x < length out)) as [Hlt|Hge].
      * rewrite list_lookup_insert_eq by by rewrite foldl_store_length.
        by destruct (lookup_lt_is_Some_2 out x Hlt) as [y ->].
      * by rewrite !lookup_ge_None_2
          by (rewrite ?length_insert, ?foldl_store_length; lia).
    + rewrite list_lookup_insert_ne by done. rewrite IH.
      destruct (decide (j ∈ idx)) as [Hin|Hin].
      * rewrite decide_True; [done | apply elem_of_app; by left].
      * rewrite decide_False; [done|].
        intros [?|?%list_elem_of_singleton]%elem_of_app; done.
Qed.

Lemma unique_store_length (vset : list Z) (vset_size blksz tid : nat) (out : list Z) :
  length (unique_store vset vset_size blksz tid out) = length out.
Proof. apply foldl_store_length. Qed.

(** The strided loops of the first [T] threads write the cells below
    [vset_size] whose index is below [T] modulo the block size. *)
Lemma unique_store_lookup (vset : list Z) (vset_size T : nat) (out : list Z) (j : nat) :
  T <= 64 ->
  launch T (unique_store vset vset_size 64) out !! j
  = if decide (j < vset_size /\ j mod 64 < T)
    then (fun _ => vset !!! j) <$> out !! j
    else out !! j.
Proof.
  unfold launch. induction T as [|T IH]; intros HT.
  - simpl. rewrite decide_False; [done | lia].
  - rewrite seq_S, foldl_snoc. simpl Nat.add.
    unfold unique_store at 1. rewrite foldl_store_lookup, IH by lia.
    pose proof (elem_of_strided_range T vset_size 64 j ltac:(lia)) as Hrange.
    destruct (decide (j ∈ strided_range T vset_size 64)) as [Hin|Hin].
    + apply Hrange in Hin. rewrite decide_False by lia. rewrite decide_True by lia. done.
    + destruct (decide (j < vset_size /\ j mod 64 < T)) as [Hlo|Hlo].
      * rewrite decide_True by lia. done.
      * rewrite decide_False; [done|]. intros [H1 H2]. apply Hin, Hrange. lia.
Qed.

Lemma unique_init_inv (arr : list Z) :
  unique_inv arr
    (UniqueState (device_array 0 (Z.to_nat MAX_FAST_UNIQUE_K))
                 (device_array 1 (Z.to_nat MAX_FAST_UNIQUE_K)) 0%Z 0).
Proof.
  split; [|split]; cbn [us_vset us_loaded us_vset_size us_base].
  - apply length_device_array.
  - apply length_device_array.
  - rewrite take_0. split; [done|]. split; [simpl; lia | apply take_0].
Qed.

Lemma same_values_count (data vals : list Z) :
  NoDup vals -> (forall v, v ∈ vals <-> v ∈ data) ->
  length vals = distinct_count data.
Proof.
  intros Hnd Hsame. apply Nat.le_antisymm.
  - apply distinct_count_bound; [done|]. intros v. apply Hsame.
  - unfold distinct_count. apply submseteq_length, NoDup_submseteq.
    + apply NoDup_remove_dups.
    + intros v Hv. rewrite elem_of_remove_dups in Hv. by apply Hsame.
Qed.

(** With at most [k] distinct values and [k] below the ceiling, the
    kernel ends and [run] returns a duplicate-free list of exactly the
    values of the input. *)
Lemma run_distinct (arr : list Z) (k : Z) :
  (k < MAX_FAST_UNIQUE_K)%Z ->
  (Z.of_nat (distinct_count arr) <= k)%Z ->
  exists vals,
    run arr k = Some (Ok vals) /\
    NoDup vals /\
    (forall v, v ∈ vals <-> v ∈ arr).
Proof.
  intros Hk Hu.
  assert (Hu' : distinct_count arr < Z.to_nat MAX_FAST_UNIQUE_K) by lia.
  destruct (unique_loop_runs arr (k `min` MAX_FAST_UNIQUE_K)%Z (S (length arr)) _
              Hu' (unique_init_inv arr) ltac:(cbn [us_base]; lia))
    as (st & Hloop & (Hvset & _ & Hset) & Hexit).
  set (seen := dedup_from [] (take (us_base st) arr)) in *.
  destruct Hset as (Hsz & Hle & Htake).
  assert (Hnd : NoDup seen) by apply dedup_from_NoDup, NoDup_nil_2.
  assert (Hsub : forall v, v ∈ seen -> v ∈ arr).
  { intros v [Hv%elem_of_nil|Hv]%dedup_from_elem; [done|].
    apply elem_of_take in Hv as (i & Hi & _). by eapply list_elem_of_lookup_2. }
  pose proof (distinct_count_bound arr seen Hnd Hsub) as Hbound.
  pose proof (distinct_count_le arr) as HuN.
  assert (Hall : forall v, v ∈ arr -> v ∈ seen).
  { destruct Hexit as [Hfull|Hend].
    - apply distinct_count_full; [done | done | lia].
    - intros v Hv. unfold seen. rewrite take_ge by lia.
      apply dedup_from_elem. by right. }
  exists seen. split; [|split; [done|split; auto]].
  unfold run. replace (k >=? MAX_FAST_UNIQUE_K)%Z with false
    by test_by_lia.
  unfold gpu_unique_k. cbv zeta. rewrite Hloop.
  replace (us_vset_size st <=? k `min` MAX_FAST_UNIQUE_K)%Z with true
    by test_by_lia.
  rewrite list_lookup_total_insert_eq by (rewrite length_device_array; lia).
  replace (us_vset_size st <? 0)%Z with false by test_by_lia.
  do 2 f_equal. rewrite Hsz, Nat2Z.id.
  apply list_eq. intros i. destruct (decide (i < length seen)) as [Hi|Hi].
  - rewrite lookup_take_lt, unique_store_lookup by lia.
    pose proof (Nat.mod_upper_bound i 64 ltac:(lia)).
    rewrite decide_True by lia. unfold device_array_like.
    destruct (lookup_lt_is_Some_2 (device_array 3 (length arr)) i) as [x ->];
      [rewrite length_device_array; lia|].
    replace (seen !! i) with (take (length seen) (us_vset st) !! i) by by rewrite Htake.
    rewrite lookup_take_lt by done.
    destruct (lookup_lt_is_Some_2 (us_vset st) i ltac:(lia)) as [y Hy].
    by rewrite Hy, (list_lookup_total_correct _ _ _ Hy).
  - rewrite lookup_take_ge by lia. symmetry. apply lookup_ge_None_2. lia.
Qed.

(** At or above the ceiling [run] refuses before it touches the kernel. *)
Lemma run_capability_error (arr : list Z) (k : Z) :
  (MAX_FAST_UNIQUE_K <= k)%Z -> run arr k = Some (Raise NotImplementedError).
Proof.
  intros Hk. unfold run.
  by replace (k >=? MAX_FAST_UNIQUE_K)%Z with true by test_by_lia.
Qed.

(** C5: with [0 < k < MAX_FAST_UNIQUE_K] and a column of [u <= k]
    distinct values, [run] returns [u] values that are pairwise distinct,
    each of them a value of the column, and every value of the column
    among them. *)
Theorem unique_values_distinct (arr : list Z) (k : Z) :
  (0 < k < MAX_FAST_UNIQUE_K)%Z ->
  (Z.of_nat (distinct_count arr) <= k)%Z ->
  exists vals,
    run arr k = Some (Ok vals) /\
    length vals = distinct_count arr /\
    NoDup vals /\
    (forall v, v ∈ vals -> v ∈ arr) /\
    (forall v, v ∈ arr -> v ∈ vals).
Proof.
  intros [_ Hk] Hu.
  destruct (run_distinct arr k Hk Hu) as (vals & Hrun & Hnd & Hsame).
  exists vals. split; [done|]. split; [by apply same_values_count|].
  split; [done|]. split; intros v; apply Hsame.
Qed.

(** C10: for the empty column and [0 < k < MAX_FAST_UNIQUE_K], [run]
    returns the empty list and raises nothing: the loop of the kernel
    ends before its first round, the kernel reports size 0 and leaves the
    (empty) output as it is. *)
Theorem unique_values_empty (k : Z) :
  (0 < k < MAX_FAST_UNIQUE_K)%Z ->
  run [] k = Some (Ok []) /\
  (forall fuel st,
     unique_loop fuel [] (k `min` MAX_FAST_UNIQUE_K)%Z 64 st = Some st) /\
  gpu_unique_k 64 [] k (device_array_like 3 []) (device_array 2 1) = Some ([], [0%Z]).
Proof.
  intros [Hpos Hk].
  assert (Hloop : forall fuel st,
            unique_loop fuel [] (k `min` MAX_FAST_UNIQUE_K)%Z 64 st = Some st).
  { intros fuel st. destruct fuel; cbn [unique_loop length];
      rewrite (proj2 (Nat.ltb_ge _ 0)) by lia; by rewrite andb_false_r. }
  assert (Hkernel :
    gpu_unique_k 64 [] k (device_array_like 3 []) (device_array 2 1) = Some ([], [0%Z])).
  { unfold gpu_unique_k. cbv zeta. rewrite Hloop. cbn [us_vset us_vset_size].
    replace (0 <=? k `min` MAX_FAST_UNIQUE_K)%Z with true
      by (symmetry; apply Z.leb_le; unfold MAX_FAST_UNIQUE_K; lia).
    f_equal. }
  split; [|done].
  unfold run. replace (k >=? MAX_FAST_UNIQUE_K)%Z with false
    by test_by_lia.
  cbv zeta. rewrite Hkernel. done.
Qed.

(** * Further properties *)

(** ** Compaction *)

Lemma total_app (l1 l2 : list Z) : total (l1 ++ l2) = (total l1 + total l2)%Z.
Proof. unfold total. induction l1 as [|x l1 IH]; simpl; lia. Qed.

Lemma total_nonneg (l : list Z) : Forall (fun x => 0 <= x)%Z l -> (0 <= total l)%Z.
Proof. unfold total. induction 1; simpl; lia. Qed.

Lemma total_take_le (l : list Z) (t : nat) :
  Forall (fun x => 0 <= x)%Z l -> (0 <= total (take t l) <= total l)%Z.
Proof.
  intros Hl. rewrite <- (take_drop t l) at 3. rewrite total_app.
  assert (0 <= total (take t l))%Z by by apply total_nonneg, Forall_take.
  assert (0 <= total (drop t l))%Z by by apply total_nonneg, Forall_drop.
  lia.
Qed.

(** X1: on cells that hold no negative value and whose sum with the
    initial value fits 64 bits, [gpu_prefixsum] is the exclusive scan: it
    leaves in cell [t] the initial value plus the sum of the cells before
    [t], and returns the initial value plus the sum of all cells. *)
Theorem gpu_prefixsum_scan (data : list Z) (initial : Z) :
  Forall (fun x => 0 <= x)%Z data ->
  (0 <= initial)%Z ->
  (initial + total data < 2 ^ 64)%Z ->
  gpu_prefixsum data initial
  = ((fun t => initial + total (take t data))%Z <$> seq 0 (length data),
     (initial + total data)%Z).
Proof.
  intros Hdata Hinit Hfit.
  rewrite (gpu_prefixsum_spec data initial (fun t => initial + total (take t data))%Z).
  - by rewrite take_ge by lia.
  - rewrite take_0. unfold total. simpl. lia.
  - intros t Ht. destruct (lookup_lt_is_Some_2 data t Ht) as [x Hx].
    rewrite (take_S_r _ _ _ Hx), total_app, (list_lookup_total_correct _ _ _ Hx).
    unfold total at 2. simpl. lia.
  - intros t _. pose proof (total_take_le data t Hdata). lia.
Qed.

Lemma valid_indices_all (mask : list Z) (n : nat) :
  (forall i, i < n -> bit_set mask i) -> valid_indices mask n = seq 0 n.
Proof.
  induction n as [|n IH]; intros Hall; [done|].
  rewrite valid_indices_S, IH, seq_S by (intros; apply Hall; lia).
  by rewrite decide_True by (apply Hall; lia).
Qed.

Lemma length_dense (data mask : list Z) :
  length (dense data mask) = count_valid mask (length data).
Proof. unfold dense, count_valid. apply length_fmap. Qed.

(** X2: for a column with elements, [copy_to_dense] without [out]
    returns as count the rank of the last position plus one and an array
    of that many cells, which starts with the valid elements in their
    order; the count is the number of valid elements or one more. *)
Theorem copy_to_dense_prefix (data mask : list Z) :
  0 < threads_per_block ->
  0 < length data ->
  (Z.of_nat (length data) < 2 ^ 64)%Z ->
  length data <= length mask * mask_bitsize ->
  exists sz out,
    copy_to_dense data mask None = Some (Ok (sz, out)) /\
    sz = (rank mask (length data - 1) + 1)%Z /\
    Z.of_nat (length out) = sz /\
    take (count_valid mask (length data)) out = dense data mask /\
    count_valid mask (length data) <= length out <= S (count_valid mask (length data)).
Proof.
  intros Hblock Hpos HN Hcover. eexists _, _.
  split; [by apply copy_to_dense_alloc|].
  pose proof (rank_bounds mask (length data - 1)) as Hr.
  pose proof (rank_S mask (length data - 1)) as HS.
  replace (S (length data - 1)) with (length data) in HS by lia.
  unfold rank in *.
  assert (Hlen : length (dense data mask
                    ++ drop (count_valid mask (length data))
                         (device_array 2
                            (Z.to_nat (Z.of_nat (count_valid mask (length data - 1)) + 1))))
                 = S (count_valid mask (length data - 1))).
  { rewrite length_app, length_dense, length_drop, length_device_array.
    destruct (gpu_mask_get_01 mask (length data - 1)) as [E|E]; rewrite E in HS; lia. }
  split; [done|]. split; [lia|]. split.
  - by rewrite take_app_length' by by rewrite length_dense.
  - rewrite Hlen.
    destruct (gpu_mask_get_01 mask (length data - 1)) as [E|E]; rewrite E in HS; lia.
Qed.

(** X3: when every element of a column with elements is valid,
    [copy_to_dense] returns the number of elements and the column
    itself. *)
Theorem copy_to_dense_all_valid (data mask : list Z) :
  0 < threads_per_block ->
  0 < length data ->
  (Z.of_nat (length data) < 2 ^ 64)%Z ->
  length data <= length mask * mask_bitsize ->
  (forall i, i < length data -> bit_set mask i) ->
  copy_to_dense data mask None = Some (Ok (Z.of_nat (length data), data)).
Proof.
  intros Hblock Hpos HN Hcover Hall.
  rewrite copy_to_dense_last_valid by (done || apply Hall; lia).
  unfold dense, count_valid. rewrite valid_indices_all by done.
  rewrite length_seq. do 3 f_equal.
  apply list_eq. intros i. destruct (decide (i < length data)) as [Hi|Hi].
  - rewrite lookup_fmap_seq by done.
    destruct (lookup_lt_is_Some_2 data i Hi) as [x Hx].
    by rewrite Hx, (list_lookup_total_correct _ _ _ Hx).
  - rewrite !lookup_ge_None_2; [done | lia | rewrite length_fmap, length_seq; lia].
Qed.


(** ** Kernels that write one cell per thread *)

Lemma store_at_frame (f : nat -> Z) (tid : nat) (s : list Z) (j : nat) :
  j <> tid -> store_at f tid s !! j = s !! j.
Proof.
  intros Hne. unfold store_at.
  destruct (tid <? length s); [|done]. by rewrite list_lookup_insert_ne.
Qed.

Lemma store_at_own (f : nat -> Z) (tid : nat) (s : list Z) :
  store_at f tid s !! tid = (fun _ => f tid) <$> s !! tid.
Proof.
  unfold store_at. destruct (Nat.ltb_spec tid (length s)) as [Hlt|Hge].
  - rewrite list_lookup_insert_eq by done.
    by destruct (lookup_lt_is_Some_2 s tid Hlt) as [x ->].
  - by rewrite lookup_ge_None_2.
Qed.

(** A launch with a thread for every cell overwrites the whole output. *)
Lemma launch_store_at (f : nat -> Z) (nthreads : nat) (out : list Z) :
  length out <= nthreads ->
  launch nthreads (store_at f) out = f <$> seq 0 (length out).
Proof.
  intros Hn. apply list_eq. intros i.
  rewrite (launch_pointwise _ _ (store_at_frame f) (store_at_own f)).
  destruct (decide (i < length out)) as [Hi|Hi].
  - rewrite decide_True by lia. rewrite lookup_fmap_seq by done.
    by destruct (lookup_lt_is_Some_2 out i Hi) as [x ->].
  - rewrite (lookup_ge_None_2 out) by lia.
    rewrite lookup_ge_None_2 by (rewrite length_fmap, length_seq; lia).
    by case_decide.
Qed.

Lemma fmap_seq_lookup_total (l : list Z) (g : Z -> Z) :
  (fun i => g (l !!! i)) <$> seq 0 (length l) = g <$> l.
Proof.
  apply list_eq. intros i. destruct (decide (i < length l)) as [Hi|Hi].
  - rewrite lookup_fmap_seq by done. rewrite list_lookup_fmap.
    destruct (lookup_lt_is_Some_2 l i Hi) as [x Hx].
    by rewrite Hx, (list_lookup_total_correct _ _ _ Hx).
  - rewrite !lookup_ge_None_2; [done | | ]; rewrite length_fmap, ?length_seq; lia.
Qed.

(** ** Fill NA *)

(** X5: filling twice under one mask is filling once with the second
    value; in particular [fillna] is idempotent. *)
Theorem fillna_twice (dt : dtype) (data mask : list Z) (v w : Z) :
  0 < threads_per_block ->
  length data <= length mask * mask_bitsize ->
  fillna dt (fillna dt data mask v) mask w = fillna dt data mask w.
Proof.
  intros Hblock Hcover. apply list_eq. intros i.
  rewrite !fillna_lookup by done.
  destruct (data !! i); [|done]. simpl. by destruct (negb _).
Qed.

(** X6: under a mask that marks every element valid [fillna] returns the
    column, and under a mask that marks none valid it returns in every
    position the fill value converted to the element type of the
    column. *)
Theorem fillna_extremes (dt : dtype) (data mask : list Z) (v : Z) :
  0 < threads_per_block ->
  length data <= length mask * mask_bitsize ->
  ((forall i, i < length data -> bit_set mask i) -> fillna dt data mask v = data) /\
  ((forall i, i < length data -> ~ bit_set mask i) ->
   fillna dt data mask v = replicate (length data) (cast dt v)).
Proof.
  intros Hblock Hcover. split; intros Hall; apply list_eq; intros i;
    rewrite fillna_lookup by done.
  - destruct (data !! i) as [x|] eqn:Hx; [|done]. simpl.
    apply lookup_lt_Some in Hx. specialize (Hall i Hx).
    unfold bit_set in Hall. by rewrite Hall.
  - destruct (data !! i) as [x|] eqn:Hx; simpl.
    + apply lookup_lt_Some in Hx. specialize (Hall i Hx).
      rewrite lookup_replicate_2 by done.
      unfold bit_set in Hall. destruct (gpu_mask_get_01 mask i) as [E|E]; [|done].
      by rewrite E.
    + apply lookup_ge_None_1 in Hx. symmetry. apply lookup_ge_None_2.
      by rewrite length_replicate.
Qed.

(** X7: a mask made by [set_mask_from_stride] with stride [S >= 1] makes
    [fillna] keep the elements at the multiples of [S] and put the fill
    value, converted to the element type of the column, everywhere
    else. *)
Theorem fillna_stride_mask (dt : dtype) (data mask : list Z) (S v : Z) (i : nat) (x : Z) :
  0 < mask_bitsize -> 0 < threads_per_block ->
  (1 <= S)%Z ->
  length data <= length mask * mask_bitsize ->
  data !! i = Some x ->
  fillna dt data (set_mask_from_stride mask S) v !! i
  = Some (if (Z.of_nat i mod S =? 0)%Z then x else cast dt v).
Proof.
  intros Hbits Hblock HS Hcover Hx. rewrite fillna_lookup, Hx by done. simpl.
  apply lookup_lt_Some in Hx.
  rewrite stride_mask_get by (done || lia).
  by destruct (Z.of_nat i mod S =? 0)%Z.
Qed.

(** ** Mask utils *)

(** X8: [set_mask_from_stride] keeps the number of words and overwrites
    every one of them: the words it leaves are those of the stride alone,
    whatever the mask held before, and each is a value of [mask_bitsize]
    bits. *)
Theorem set_mask_from_stride_overwrites (mask mask' : list Z) (S : Z) :
  0 < threads_per_block ->
  length mask = length mask' ->
  length (set_mask_from_stride mask S) = length mask /\
  set_mask_from_stride mask S = set_mask_from_stride mask' S /\
  Forall (fun w => 0 <= w < 2 ^ Z.of_nat mask_bitsize)%Z (set_mask_from_stride mask S).
Proof.
  intros Hblock Hlen.
  assert (Hwords : forall m : list Z,
    set_mask_from_stride m S
    = (fun t => wrap mask_bitsize (stride_bits S (t * mask_bitsize) mask_bitsize))
        <$> seq 0 (length m)).
  { intros m. unfold set_mask_from_stride, forall_launch. cbv zeta.
    apply launch_store_at. by apply forall_threads_ge. }
  rewrite !Hwords, Hlen. split; [by rewrite length_fmap, length_seq|]. split; [done|].
  apply Forall_fmap, Forall_forall. intros t _. simpl. unfold wrap.
  apply Z.mod_pos_bound. lia.
Qed.

(** ** Binary kernels *)

Lemma cast_0 (dt : dtype) : cast dt 0 = 0%Z.
Proof.
  destruct dt as [bits|bits]; unfold cast, wrap; [done|]. cbv zeta.
  destruct bits as [|bits].
  - simpl. done.
  - replace (Z.of_nat (S bits) - 1)%Z with (Z.of_nat bits) by lia.
    rewrite Z.add_0_l, Z.mod_small; [lia|].
    replace (Z.of_nat (S bits)) with (Z.of_nat bits + 1)%Z by lia.
    rewrite Z.pow_add_r by lia.
    assert (0 < 2 ^ Z.of_nat bits)%Z by (apply Z.pow_pos_nonneg; lia). lia.
Qed.

(** X9: [apply_equal_constant] returns an array of the length of its
    input, whatever the fresh memory held; in an element type that holds
    1 its cell [i] is 1 where the input equals the constant and 0 where it
    does not. *)
Theorem apply_equal_constant_cells (arr : list Z) (val : Z) (dt : dtype) :
  0 < threads_per_block ->
  fits dt 1 ->
  apply_equal_constant arr val dt
  = (fun x => if decide (x = val) then 1%Z else 0%Z) <$> arr.
Proof.
  intros Hblock Hone. unfold apply_equal_constant, forall_launch. cbv zeta.
  change (gpu_equal_constant dt arr val)
    with (store_at (fun i => cast dt (Z.b2z (arr !!! i =? val)%Z))).
  rewrite launch_store_at by by apply forall_threads_ge.
  rewrite length_device_array.
  rewrite (fmap_seq_lookup_total arr (fun x => cast dt (Z.b2z (x =? val)%Z))).
  apply list_fmap_ext. intros i x _.
  destruct (Z.eqb_spec x val); case_decide; try done; simpl.
  apply cast_0.
Qed.

(** ** GPU array type casting *)

Lemma astype_cells (ary_dtype : dtype) (ary : list Z) (dt : dtype) :
  0 < threads_per_block ->
  astype ary_dtype ary dt = if decide (ary_dtype = dt) then ary else cast dt <$> ary.
Proof.
  intros Hblock. unfold astype. case_decide; [done|]. cbv zeta.
  unfold forall_launch.
  change (gpu_copy dt ary) with (store_at (fun tid => cast dt (ary !!! tid))).
  rewrite launch_store_at by by apply forall_threads_ge.
  rewrite length_device_array. apply fmap_seq_lookup_total.
Qed.

(** X10: [astype] to the element type the array has returns the array;
    to another type it returns a new array of the same length whose cell
    [i] is the value of cell [i] as the new type stores it, whatever the
    fresh memory held. *)
Theorem astype_converts (ary_dtype : dtype) (ary : list Z) (dt : dtype) :
  0 < threads_per_block ->
  astype ary_dtype ary ary_dtype = ary /\
  length (astype ary_dtype ary dt) = length ary /\
  (ary_dtype <> dt ->
   forall i x, ary !! i = Some x -> astype ary_dtype ary dt !! i = Some (cast dt x)).
Proof.
  intros Hblock. rewrite !astype_cells by done. split; [by rewrite decide_True|].
  split.
  - case_decide; [done | apply length_fmap].
  - intros Hne i x Hx. rewrite decide_False by done.
    by rewrite list_lookup_fmap, Hx.
Qed.

Lemma cast_uint_small (bits : nat) (v : Z) :
  (0 <= v < 2 ^ Z.of_nat bits)%Z -> cast (uint bits) v = v.
Proof. intros Hv. unfold cast, wrap. by apply Z.mod_small. Qed.

(** X11: widening an unsigned array and narrowing it back returns the
    array: for [b <= b'] and cells that are values of [b] bits,
    [astype] to [uint b'] and back to [uint b] is the identity. *)
Theorem astype_widen_narrow (b b' : nat) (ary : list Z) :
  0 < threads_per_block ->
  b <= b' ->
  Forall (fun v => 0 <= v < 2 ^ Z.of_nat b)%Z ary ->
  astype (uint b') (astype (uint b) ary (uint b')) (uint b) = ary.
Proof.
  intros Hblock Hb Hary. rewrite !astype_cells by done.
  destruct (decide (b = b')) as [<-|Hne].
  - by rewrite !decide_True.
  - rewrite !decide_False by congruence.
    rewrite <- list_fmap_compose. rewrite <- (list_fmap_id ary) at 2.
    apply list_fmap_ext. intros i v Hv. unfold compose, id.
    pose proof (proj1 (Forall_lookup _ _) Hary i v Hv) as Hrange. simpl in Hrange.
    assert (2 ^ Z.of_nat b <= 2 ^ Z.of_nat b')%Z by (apply Z.pow_le_mono_r; lia).
    rewrite (cast_uint_small b') by lia. by apply cast_uint_small.
Qed.

(** X12: [copy_array(arr, out)] on two buffers of one size copies the
    content of [arr] into [out], leaves every other buffer alone and
    returns [out]; on buffers of different sizes it fails. *)
Theorem copy_array_to_spec (h : heap) (arr out : nat) (src dst : list Z) :
  h !! arr = Some src ->
  h !! out = Some dst ->
  copy_array_to arr out h
  = if decide (length dst = length src) then Some (out, <[out := src]> h) else None.
Proof.
  intros Harr Hout. unfold copy_array_to, dev_bind, dev_read, dev_write, dev_ret.
  rewrite Harr. cbv beta iota. rewrite Hout. cbv beta iota.
  destruct (Nat.eqb_spec (length dst) (length src)) as [E|E]; cbn [negb].
  - rewrite decide_True by done.
    replace (out <? length h) with true
      by (symmetry; apply Nat.ltb_lt; by eapply lookup_lt_Some).
    by rewrite copy_to_device_all.
  - by rewrite decide_False.
Qed.

(** ** Copy column into a matrix *)






(** ** Reductions and variance *)

Lemma compute_sum_inplace (dt : dtype) (h : heap) (arr : nat) (buf : list Z) :
  h !! arr = Some buf ->
  compute_sum dt arr (Some true) h
  = Some (foldl (fun x y => cast dt (x + y)%Z) 0%Z buf,
          <[arr := consumed buf <$> seq 0 (length buf)]> h).
Proof.
  intros Harr. unfold compute_sum, gpu_sum.
  by rewrite (run_reduction_inplace _ h arr buf).
Qed.

Lemma compute_mean_inplace (dt : dtype) (h : heap) (arr : nat) (buf : list Z) :
  h !! arr = Some buf ->
  compute_mean dt arr (Some true) h
  = Some (if length buf =? 0 then Raise ZeroDivisionError
          else Ok (foldl (fun x y => cast dt (x + y)%Z) 0%Z buf, length buf),
          <[arr := consumed buf <$> seq 0 (length buf)]> h).
Proof.
  intros Harr. unfold compute_mean. unfold dev_bind at 1.
  rewrite (compute_sum_inplace dt h arr buf Harr).
  unfold dev_bind, dev_read, dev_ret.
  rewrite list_lookup_insert_eq by by eapply lookup_lt_Some.
  rewrite length_fmap, length_seq.
  by destruct (length buf =? 0).
Qed.

(** X14: with the in-place flag set, [compute_sum], [compute_min],
    [compute_max] and [compute_mean] allocate nothing and run the
    reduction on the input buffer itself: afterwards that buffer holds
    what the reduction left there and every other buffer is as before.
    Each call returns what it returns on the default path. *)
Theorem reductions_consume_input (dt : dtype) (h : heap) (arr : nat) (buf : list Z) :
  h !! arr = Some buf ->
  exists (h' : heap) (m : result (Z * nat)) (s lo hi : Z),
    h' = <[arr := consumed buf <$> seq 0 (length buf)]> h /\
    length h' = length h /\
    (forall p, p <> arr -> h' !! p = h !! p) /\
    (compute_sum dt arr (Some true) h = Some (s, h') /\
     compute_min arr (Some true) h = Some (lo, h') /\
     compute_max arr (Some true) h = Some (hi, h') /\
     compute_mean dt arr (Some true) h = Some (m, h')) /\
    (fst <$> compute_sum dt arr None h = Some s /\
     fst <$> compute_min arr None h = Some lo /\
     fst <$> compute_max arr None h = Some hi /\
     fst <$> compute_mean dt arr None h = Some m).
Proof.
  intros Harr. eexists _, _, _, _, _. split; [reflexivity|].
  split; [apply length_insert|].
  split; [intros p Hp; by apply list_lookup_insert_ne|].
  split; [split; [|split; [|split]]|split; [|split; [|split]]].
  - by apply compute_sum_inplace.
  - unfold compute_min, gpu_min. by rewrite (run_reduction_inplace _ h arr buf).
  - unfold compute_max, gpu_max. by rewrite (run_reduction_inplace _ h arr buf).
  - by apply compute_mean_inplace.
  - by rewrite (compute_sum_copy dt h arr buf None).
  - unfold compute_min, gpu_min. by rewrite (run_reduction_copy _ h arr buf).
  - unfold compute_max, gpu_max. by rewrite (run_reduction_copy _ h arr buf).
  - by rewrite (compute_mean_copy dt h arr buf None).
Qed.

Lemma foldl_min_spec (init : Z) (l : list Z) :
  (foldl Z.min init l <= init)%Z /\
  Forall (fun x => foldl Z.min init l <= x)%Z l /\
  (foldl Z.min init l = init \/ foldl Z.min init l ∈ l).
Proof.
  induction l as [|x l IH] using rev_ind.
  - simpl. split; [lia|]. split; [constructor | by left].
  - rewrite foldl_snoc. destruct IH as (Hle & Hall & Hin).
    split; [lia|]. split.
    + apply Forall_app. split.
      * eapply Forall_impl; [exact Hall|]. intros y Hy. simpl in *. lia.
      * constructor; [lia | constructor].
    + destruct (Z.min_spec (foldl Z.min init l) x) as [[_ ->]|[_ ->]].
      * destruct Hin as [?|?]; [by left | right; apply elem_of_app; by left].
      * right. apply elem_of_app. right. by apply list_elem_of_singleton.
Qed.

Lemma foldl_max_spec (init : Z) (l : list Z) :
  (init <= foldl Z.max init l)%Z /\
  Forall (fun x => x <= foldl Z.max init l)%Z l /\
  (foldl Z.max init l = init \/ foldl Z.max init l ∈ l).
Proof.
  induction l as [|x l IH] using rev_ind.
  - simpl. split; [lia|]. split; [constructor | by left].
  - rewrite foldl_snoc. destruct IH as (Hle & Hall & Hin).
    split; [lia|]. split.
    + apply Forall_app. split.
      * eapply Forall_impl; [exact Hall|]. intros y Hy. simpl in *. lia.
      * constructor; [lia | constructor].
    + destruct (Z.max_spec (foldl Z.max init l) x) as [[_ ->]|[_ ->]].
      * right. apply elem_of_app. right. by apply list_elem_of_singleton.
      * destruct Hin as [?|?]; [by left | right; apply elem_of_app; by left].
Qed.

(** X15: [compute_min] returns a lower bound of the column that is never
    above 0, and is 0 or an element of the column; [compute_max] returns
    an upper bound that is never below 0, and is 0 or an element: the
    reductions start from 0. *)
Theorem compute_min_max_bounds (h : heap) (arr : nat) (buf : list Z) (inplace : option bool) :
  h !! arr = Some buf ->
  exists lo hi : Z,
    fst <$> compute_min arr inplace h = Some lo /\
    fst <$> compute_max arr inplace h = Some hi /\
    (lo <= 0 <= hi)%Z /\
    Forall (fun x => lo <= x <= hi)%Z buf /\
    (lo = 0%Z \/ lo ∈ buf) /\
    (hi = 0%Z \/ hi ∈ buf).
Proof.
  intros Harr. exists (foldl Z.min 0%Z buf), (foldl Z.max 0%Z buf).
  pose proof (foldl_min_spec 0 buf) as (Hlo & Hlos & Hloin).
  pose proof (foldl_max_spec 0 buf) as (Hhi & Hhis & Hhiin).
  unfold compute_min, compute_max, gpu_min, gpu_max.
  split; [|split].
  - destruct inplace as [[|]|].
    + by rewrite (run_reduction_inplace _ h arr buf).
    + by rewrite (run_reduction_copy _ h arr buf).
    + by rewrite (run_reduction_copy _ h arr buf).
  - destruct inplace as [[|]|].
    + by rewrite (run_reduction_inplace _ h arr buf).
    + by rewrite (run_reduction_copy _ h arr buf).
    + by rewrite (run_reduction_copy _ h arr buf).
  - split; [lia|]. split; [|done].
    apply Forall_forall. intros x Hx.
    pose proof (proj1 (Forall_forall _ _) Hlos x Hx).
    pose proof (proj1 (Forall_forall _ _) Hhis x Hx). simpl in *. lia.
Qed.

(** The deviations that [compute_stats] stores for the mean [mu], and
    the two means it takes, on a column with an element. *)
Lemma compute_stats_run (dt : dtype) (h : heap) (arr : nat) (buf : list Z) :
  0 < threads_per_block ->
  h !! arr = Some buf ->
  buf <> [] ->
  let sum := foldl (fun x y => cast dt (x + y)%Z) 0%Z in
  let mu := (sum buf, length buf) in
  let devs := (fun x => sq_dev x mu) <$> buf in
  compute_stats dt arr h
  = Some (Ok (mu, (sum devs, length buf)),
          h ++ [consumed buf <$> seq 0 (length buf);
                consumed devs <$> seq 0 (length buf)]).
Proof.
  intros Hblock Harr Hne sum mu devs.
  assert (Hlen : (length buf =? 0) = false)
    by (apply Nat.eqb_neq; by destruct buf).
  set (h1 := h ++ [consumed buf <$> seq 0 (length buf)]).
  assert (Harr1 : h1 !! arr = Some buf) by by apply lookup_app_l_Some.
  unfold compute_stats. unfold dev_bind at 1.
  rewrite (compute_mean_copy dt h arr buf None Harr eq_refl), Hlen.
  fold sum mu h1.
  unfold dev_bind at 1. unfold dev_read at 1. rewrite Harr1.
  unfold dev_bind at 1. unfold dev_alloc.
  unfold dev_bind at 1. unfold dev_read at 1.
  rewrite lookup_app_r, Nat.sub_diag by lia. cbn [lookup list_lookup].
  unfold dev_bind at 1. unfold dev_write.
  rewrite length_app. cbn [length].
  replace (length h1 <? length h1 + 1) with true by test_by_lia.
  rewrite insert_app_r_alt, Nat.sub_diag by lia. cbn [insert list_insert].
  unfold forall_launch.
  change (gpu_variance_step buf mu) with (store_at (fun tid => sq_dev (buf !!! tid) mu)).
  rewrite launch_store_at
    by (rewrite length_device_array; by apply forall_threads_ge).
  rewrite length_device_array.
  rewrite (fmap_seq_lookup_total buf (fun x => sq_dev x mu)). fold devs.
  unfold dev_bind at 1.
  rewrite (compute_mean_inplace dt _ (length h1) devs)
    by by rewrite lookup_app_r, Nat.sub_diag by lia.
  assert (Hdevs : length devs = length buf) by apply length_fmap.
  rewrite Hdevs, Hlen. unfold dev_ret.
  rewrite insert_app_r_alt, Nat.sub_diag by lia. cbn [insert list_insert].
  unfold h1. by rewrite <- app_assoc.
Qed.

(** X16: [compute_stats] leaves every buffer of the device as it was, the
    input among them, although its second mean runs in place.  On a
    column with an element it returns the mean of the column and the
    mean of the deviations, and adds two buffers: the copy that the first
    mean consumes and the scratch of the deviations, which the second
    mean consumes.  On a column without elements the first mean raises,
    after its copy was added. *)
Theorem compute_stats_keeps_input (dt : dtype) (h : heap) (arr : nat) (buf : list Z) :
  0 < threads_per_block ->
  h !! arr = Some buf ->
  exists (h' : heap) (r : result ((Z * nat) * (Z * nat))),
    compute_stats dt arr h = Some (r, h') /\
    (forall p b, h !! p = Some b -> h' !! p = Some b) /\
    (buf = [] -> r = Raise ZeroDivisionError /\ h' = h ++ [[]]) /\
    (buf <> [] ->
     exists (mu var : Z * nat) (devs : list Z),
       r = Ok (mu, var) /\
       fst <$> compute_mean dt arr None h = Some (Ok mu) /\
       devs = (fun x => sq_dev x mu) <$> buf /\
       fst <$> compute_mean dt 0 (Some true) [devs] = Some (Ok var) /\
       h' = h ++ [consumed buf <$> seq 0 (length buf);
                  consumed devs <$> seq 0 (length buf)]).
Proof.
  intros Hblock Harr. destruct (decide (buf = [])) as [->|Hne].
  - eexists _, _. split; [|split; [|split]].
    + unfold compute_stats. unfold dev_bind at 1.
      rewrite (compute_mean_copy dt h arr [] None Harr eq_refl). reflexivity.
    + intros p b Hp. by apply lookup_app_l_Some.
    + done.
    + done.
  - eexists _, _. split; [|split; [|split]].
    + by apply compute_stats_run.
    + intros p b Hp. by apply lookup_app_l_Some.
    + done.
    + intros _. eexists _, _, _. split; [reflexivity|].
      assert (Hlen : (length buf =? 0) = false)
        by (apply Nat.eqb_neq; by destruct buf).
      split; [|split; [reflexivity|split; [|reflexivity]]].
      * by rewrite (compute_mean_copy dt h arr buf None Harr eq_refl), Hlen.
      * rewrite (compute_mean_inplace dt [_] 0 _ eq_refl).
        by rewrite length_fmap, Hlen.
Qed.

(** ** Unique values *)

(** X17: [gpu_unique_set_insert] on a set of [sz] values in an array
    with room for them: a value of the set leaves array and size as they
    are; a new value is stored in cell [sz] and the size grows by one;
    when the array is full a new value changes nothing and the result is
    -1. *)
Theorem gpu_unique_set_insert_cases (vset : list Z) (sz : nat) (val : Z) :
  sz <= length vset ->
  gpu_unique_set_insert vset (Z.of_nat sz) val
  = if decide (val ∈ take sz vset) then (vset, Z.of_nat sz)
    else if decide (sz < length vset) then (<[sz := val]> vset, (Z.of_nat sz + 1)%Z)
    else (vset, (-1)%Z).
Proof.
  intros Hsz. unfold gpu_unique_set_insert. rewrite Nat2Z.id.
  pose proof (vset_scan_spec vset val sz 0 ltac:(lia)) as Hscan.
  rewrite drop_0 in Hscan.
  destruct (vset_scan vset val 0 sz).
  - by rewrite decide_True by by apply Hscan.
  - rewrite decide_False by (intros Hin; apply Hscan in Hin; done). cbv zeta.
    replace (if (Z.of_nat sz >? 0)%Z then (Z.of_nat sz - 1 + 1)%Z else 0%Z)
      with (Z.of_nat sz) by (destruct (Z.gtb_spec (Z.of_nat sz) 0); lia).
    rewrite Nat2Z.id.
    destruct (Z.ltb_spec (Z.of_nat sz) (Z.of_nat (length vset))).
    + by rewrite decide_True by lia.
    + by rewrite decide_False by lia.
Qed.

Lemma gpu_unique_set_insert_shape (vset : list Z) (sz val : Z) :
  exists vset' sz',
    gpu_unique_set_insert vset sz val = (vset', sz') /\
    length vset' = length vset /\
    (sz' = sz \/ sz' = (sz + 1)%Z \/ sz' = (-1)%Z).
Proof.
  unfold gpu_unique_set_insert. destruct (vset_scan _ _ _ _).
  - exists vset, sz. auto.
  - cbv zeta. destruct (_ <? _)%Z.
    + eexists _, _. split; [reflexivity|]. split; [apply length_insert | auto].
    + exists vset, (-1)%Z. auto.
Qed.

Lemma gpu_unique_set_insert_full (vset : list Z) (sz : Z) (seen : list Z) (val : Z) :
  holds_set vset sz seen ->
  length vset <= length seen ->
  val ∉ seen ->
  gpu_unique_set_insert vset sz val = (vset, (-1)%Z).
Proof.
  intros Hset Hfull Hnew. pose proof Hset as (Hsz & Hle & Htake).
  unfold gpu_unique_set_insert.
  pose proof (vset_scan_seen vset sz seen val Hset) as Hscan.
  destruct (vset_scan vset val 0 (Z.to_nat sz)); [by destruct Hnew; apply Hscan|].
  cbv zeta.
  replace (if (sz >? 0)%Z then (sz - 1 + 1)%Z else 0%Z) with sz
    by (destruct (Z.gtb_spec sz 0); lia).
  by replace (sz <? Z.of_nat (length vset))%Z with false by test_by_lia.
Qed.

(** One insertion by thread 0, in any state: the set stays a set, or the
    size is left above [sm_mem_size]. *)
Lemma unique_insert_any (loaded : list Z) (sm_mem_size : Z) (i : nat)
    (vset : list Z) (sz : Z) (seen : list Z) :
  holds_set vset sz seen \/ (sm_mem_size < sz)%Z ->
  exists vset' sz',
    unique_insert loaded sm_mem_size (vset, sz) i = (vset', sz') /\
    length vset' = length vset /\
    (holds_set vset' sz' (dedup_step seen (loaded !!! i)) \/ (sm_mem_size < sz')%Z).
Proof.
  intros Hstate. unfold unique_insert. set (val := loaded !!! i).
  destruct Hstate as [Hset|Hover].
  - pose proof Hset as (Hsz & Hle & Htake).
    destruct (decide (val ∈ seen \/ length seen < length vset)) as [Hroom|Hfull].
    + assert (Hstep : exists vset' sz',
                gpu_unique_set_insert vset sz val = (vset', sz') /\
                (0 <= sz')%Z /\ length vset' = length vset /\
                holds_set vset' sz' (dedup_step seen val)).
      { destruct (decide (length seen < length vset)) as [Hlt|Hge].
        - by apply gpu_unique_set_insert_step.
        - destruct Hroom as [Hin|?]; [|done].
          exists vset, sz. unfold gpu_unique_set_insert, dedup_step.
          rewrite (proj2 (vset_scan_seen vset sz seen val Hset) Hin).
          rewrite decide_True by done. repeat split; try done; lia. }
      destruct Hstep as (vset' & sz' & Hins & Hpos & Hlen & Hset').
      exists vset', sz'. rewrite Hins.
      replace (sz' >=? 0)%Z with true by test_by_lia. auto.
    + assert (Hnew : val ∉ seen) by (intros Hin; apply Hfull; by left).
      assert (Hlen : length vset <= length seen)
        by (destruct (decide (length seen < length vset)); [destruct Hfull; by right | lia]).
      rewrite (gpu_unique_set_insert_full vset sz seen val Hset Hlen Hnew).
      exists vset, (sm_mem_size + 1)%Z. cbn. split; [done|]. split; [done|]. right. lia.
  - destruct (gpu_unique_set_insert_shape vset sz val) as (vset' & sz' & Hins & Hlen & Hsz).
    rewrite Hins. destruct (Z.geb_spec sz' 0).
    + exists vset', sz'. split; [done|]. split; [done|]. right. lia.
    + exists vset', (sm_mem_size + 1)%Z. split; [done|]. split; [done|]. right. lia.
Qed.

Lemma unique_insert_all_any (loaded : list Z) (sm_mem_size : Z) (m : nat)
    (vset : list Z) (sz : Z) (seen : list Z) :
  holds_set vset sz seen \/ (sm_mem_size < sz)%Z ->
  m <= length loaded ->
  exists vset' sz',
    foldl (unique_insert loaded sm_mem_size) (vset, sz) (seq 0 m) = (vset', sz') /\
    length vset' = length vset /\
    (holds_set vset' sz' (dedup_from seen (take m loaded)) \/ (sm_mem_size < sz')%Z).
Proof.
  intros Hstate. induction m as [|m IH]; intros Hm.
  - exists vset, sz. rewrite take_0. auto.
  - destruct (lookup_lt_is_Some_2 loaded m ltac:(lia)) as [val Hval].
    destruct IH as (vset1 & sz1 & Hfold & Hlen1 & Hstate1); [lia|].
    rewrite seq_S, foldl_snoc, Hfold. simpl Nat.add.
    destruct (unique_insert_any loaded sm_mem_size m vset1 sz1 _ Hstate1)
      as (vset2 & sz2 & Hins & Hlen2 & Hstate2).
    exists vset2, sz2. split; [done|]. split; [congruence|].
    rewrite (take_S_r _ _ _ Hval), dedup_from_snoc.
    by rewrite (list_lookup_total_correct _ _ _ Hval) in Hstate2.
Qed.

Lemma unique_chunk_any_inv (arr : list Z) (sm_mem_size : Z) (st : unique_state) :
  unique_any_inv arr sm_mem_size st ->
  unique_any_inv arr sm_mem_size (unique_chunk arr sm_mem_size 64 st).
Proof.
  intros (Hvset & Hloaded & Hbase & Hstate).
  pose proof max_fast_unique_k_block as Hblock.
  unfold unique_chunk. cbv zeta.
  set (base := us_base st) in *.
  set (valid_load := 64 `min` (length arr - base)).
  set (loaded := launch 64 (unique_load arr base valid_load) (us_loaded st)).
  assert (Hlen : length loaded = Z.to_nat MAX_FAST_UNIQUE_K).
  { unfold loaded. by rewrite (launch_length _ (unique_load_length arr base valid_load)). }
  assert (Hchunk : dedup_from (dedup_from [] (take base arr)) (take valid_load loaded)
                   = dedup_from [] (take (base + 64) arr)).
  { unfold loaded, valid_load. rewrite unique_load_chunk by lia.
    by rewrite <- dedup_from_app, take_take_drop. }
  destruct (unique_insert_all_any loaded sm_mem_size valid_load _ _ _ Hstate)
    as (vset' & sz' & Hfold & Hlen' & Hstate'); [lia|].
  rewrite Hfold. split; [|split; [|split]];
    cbn [us_vset us_loaded us_vset_size us_base].
  - congruence.
  - done.
  - rewrite <- Nat.Div0.add_mod_idemp_l, Hbase. done.
  - by rewrite <- Hchunk.
Qed.

(** On any input the [while] loop ends within the fuel. *)
Lemma unique_loop_runs_any (arr : list Z) (sm_mem_size : Z) (fuel : nat) (st : unique_state) :
  unique_any_inv arr sm_mem_size st ->
  length arr - us_base st < fuel ->
  exists st',
    unique_loop fuel arr sm_mem_size 64 st = Some st' /\
    unique_any_inv arr sm_mem_size st' /\
    ((sm_mem_size <= us_vset_size st')%Z \/ length arr <= us_base st').
Proof.
  revert st. induction fuel as [|fuel IH]; intros st Hinv Hfuel; [lia|].
  cbn [unique_loop].
  destruct (Z.ltb_spec (us_vset_size st) sm_mem_size) as [Hsz|Hsz]; cbn [andb].
  - destruct (Nat.ltb_spec (us_base st) (length arr)) as [Hbase|Hbase].
    + apply IH.
      * by apply unique_chunk_any_inv.
      * rewrite unique_chunk_base. lia.
    + exists st. auto.
  - exists st. auto.
Qed.

Lemma unique_init_any_inv (arr : list Z) (sm_mem_size : Z) :
  unique_any_inv arr sm_mem_size
    (UniqueState (device_array 0 (Z.to_nat MAX_FAST_UNIQUE_K))
                 (device_array 1 (Z.to_nat MAX_FAST_UNIQUE_K)) 0%Z 0).
Proof.
  destruct (unique_init_inv arr) as (H1 & H2 & H3).
  split; [done|]. split; [done|]. split; [done|]. by left.
Qed.

(** What [run] does below the ceiling, on any input: it raises
    [ValueError], or it returns the set of the values of the chunks it
    read, in the order of their first occurrence; the set has at most [k]
    values, and the loop stopped because the set had [k] values or the
    input was read to its end. *)
Lemma run_general (arr : list Z) (k : Z) :
  (k < MAX_FAST_UNIQUE_K)%Z ->
  run arr k = Some (Raise ValueError) \/
  exists n,
    run arr k = Some (Ok (dedup_from [] (take n arr))) /\
    n mod 64 = 0 /\
    (Z.of_nat (length (dedup_from [] (take n arr))) <= k)%Z /\
    ((k <= Z.of_nat (length (dedup_from [] (take n arr))))%Z \/ length arr <= n).
Proof.
  intros Hk.
  destruct (unique_loop_runs_any arr (k `min` MAX_FAST_UNIQUE_K)%Z (S (length arr)) _
              (unique_init_any_inv arr _) ltac:(cbn [us_base]; lia))
    as (st & Hloop & (Hvset & _ & Hbase & Hstate) & Hexit).
  replace (k `min` MAX_FAST_UNIQUE_K)%Z with k in * by lia.
  unfold run. replace (k >=? MAX_FAST_UNIQUE_K)%Z with false by test_by_lia.
  unfold gpu_unique_k. cbv zeta.
  replace (k `min` MAX_FAST_UNIQUE_K)%Z with k by lia. rewrite Hloop.
  destruct (Z.leb_spec (us_vset_size st) k) as [Hfit|Hover].
  - right. destruct Hstate as [Hset|?]; [|lia].
    set (seen := dedup_from [] (take (us_base st) arr)) in *.
    destruct Hset as (Hsz & Hle & Htake).
    pose proof (dedup_prefix_bound arr (us_base st)) as Hbound. fold seen in Hbound.
    pose proof (distinct_count_le arr) as HuN.
    exists (us_base st). fold seen. split; [|split; [done|split; lia]].
    rewrite list_lookup_total_insert_eq by (rewrite length_device_array; lia).
    replace (us_vset_size st <? 0)%Z with false by test_by_lia.
    do 2 f_equal. rewrite Hsz, Nat2Z.id.
    apply list_eq. intros i. destruct (decide (i < length seen)) as [Hi|Hi].
    + rewrite lookup_take_lt, unique_store_lookup by lia.
      pose proof (Nat.mod_upper_bound i 64 ltac:(lia)).
      rewrite decide_True by lia. unfold device_array_like.
      destruct (lookup_lt_is_Some_2 (device_array 3 (length arr)) i) as [x ->];
        [rewrite length_device_array; lia|].
      replace (seen !! i) with (take (length seen) (us_vset st) !! i) by by rewrite Htake.
      rewrite lookup_take_lt by done.
      destruct (lookup_lt_is_Some_2 (us_vset st) i ltac:(lia)) as [y Hy].
      by rewrite Hy, (list_lookup_total_correct _ _ _ Hy).
    + rewrite lookup_take_ge by lia. symmetry. apply lookup_ge_None_2. lia.
  - left. rewrite list_lookup_total_insert_eq by (rewrite length_device_array; lia).
    done.
Qed.

Lemma dedup_prefix_sound (arr : list Z) (n : nat) (v : Z) :
  v ∈ dedup_from [] (take n arr) -> v ∈ arr.
Proof.
  intros [Hv%elem_of_nil|Hv]%dedup_from_elem; [done|].
  apply elem_of_take in Hv as (i & Hi & _). by eapply list_elem_of_lookup_2.
Qed.

Lemma dedup_from_absorb (seen l : list Z) :
  (forall v, v ∈ l -> v ∈ seen) -> dedup_from seen l = seen.
Proof.
  induction l as [|x l IH] using rev_ind; intros Hin; [done|].
  rewrite dedup_from_snoc, IH by (intros v Hv; apply Hin, elem_of_app; by left).
  unfold dedup_step. rewrite decide_True; [done|].
  apply Hin, elem_of_app. right. by apply list_elem_of_singleton.
Qed.

(** X18: whatever the column and [k], [run] ends with a result, and
    which one is told by [k] and the column: [NotImplementedError] exactly
    when [k] is at or above the ceiling; [ValueError] only when the column
    has more than [k] distinct values; and a returned list has at most [k]
    values, all of them values of the column, none twice. *)
Theorem run_outcomes (arr : list Z) (k : Z) :
  exists r,
    run arr k = Some r /\
    (r = Raise NotImplementedError <-> (MAX_FAST_UNIQUE_K <= k)%Z) /\
    (r = Raise ValueError -> (k < Z.of_nat (distinct_count arr))%Z) /\
    (forall vals, r = Ok vals ->
       (Z.of_nat (length vals) <= k)%Z /\ NoDup vals /\ forall v, v ∈ vals -> v ∈ arr).
Proof.
  destruct (Z.le_gt_cases MAX_FAST_UNIQUE_K k) as [Hk|Hk].
  - exists (Raise NotImplementedError).
    split; [by apply run_capability_error|]. split; [done|]. split; [done|].
    intros vals Hvals. discriminate.
  - destruct (run_general arr k ltac:(lia)) as [Herr|(n & Hok & _ & Hlen & _)].
    + exists (Raise ValueError). split; [done|].
      split; [split; [discriminate | lia]|]. split; [|intros vals Hvals; discriminate].
      intros _. destruct (Z.lt_ge_cases k (Z.of_nat (distinct_count arr))) as [?|Hu]; [done|].
      destruct (run_distinct arr k ltac:(lia) ltac:(lia)) as (vals & Hrun & _).
      rewrite Herr in Hrun. discriminate.
    + eexists. split; [exact Hok|].
      split; [split; [discriminate | lia]|]. split; [discriminate|].
      intros vals [= <-]. split; [done|]. split.
      * apply dedup_from_NoDup, NoDup_nil_2.
      * intros v. apply dedup_prefix_sound.
Qed.

(** X19: with at most [k] distinct values and [k] below the ceiling,
    [run] returns the distinct values of the column in the order of their
    first occurrence. *)
Theorem run_first_occurrence (arr : list Z) (k : Z) :
  (k < MAX_FAST_UNIQUE_K)%Z ->
  (Z.of_nat (distinct_count arr) <= k)%Z ->
  run arr k = Some (Ok (dedup_from [] arr)).
Proof.
  intros Hk Hu.
  destruct (run_general arr k Hk) as [Herr|(n & Hok & _ & Hlen & Hexit)].
  - destruct (run_distinct arr k Hk Hu) as (vals & Hrun & _).
    rewrite Herr in Hrun. discriminate.
  - rewrite Hok. do 2 f_equal.
    rewrite <- (take_drop n arr) at 2. rewrite dedup_from_app.
    symmetry. apply dedup_from_absorb. intros v Hv.
    assert (Harr : v ∈ arr).
    { rewrite <- (take_drop n arr). apply elem_of_app. by right. }
    destruct Hexit as [Hfull|Hend].
    + clear Hv. revert v Harr. apply distinct_count_full.
      * apply dedup_from_NoDup, NoDup_nil_2.
      * intros x. apply dedup_prefix_sound.
      * lia.
    + rewrite drop_ge in Hv by lia. by apply elem_of_nil in Hv.
Qed.

(** X20: on a column of at most one chunk (64 elements) and for
    [0 < k] below the ceiling, [run] raises [ValueError] exactly when the
    column has more than [k] distinct values. *)
Theorem run_one_chunk_overflow (arr : list Z) (k : Z) :
  length arr <= 64 ->
  (0 < k < MAX_FAST_UNIQUE_K)%Z ->
  run arr k = Some (Raise ValueError) <-> (k < Z.of_nat (distinct_count arr))%Z.
Proof.
  intros Hshort [Hpos Hk]. split.
  - intros Herr. destruct (Z.lt_ge_cases k (Z.of_nat (distinct_count arr))) as [?|Hu]; [done|].
    destruct (run_distinct arr k Hk ltac:(lia)) as (vals & Hrun & _).
    rewrite Herr in Hrun. discriminate.
  - intros Hu. destruct (run_general arr k Hk) as [Herr|(n & Hok & Hn & Hlen & Hexit)];
      [done|]. exfalso.
    assert (Hend : length arr <= n).
    { destruct Hexit as [Hfull|?]; [|done].
      destruct (decide (n = 0)) as [->|Hn0].
      - rewrite take_0 in Hfull. simpl in Hfull. lia.
      - pose proof (Nat.div_mod_eq n 64). lia. }
    rewrite take_ge in Hlen by done.
    assert (Hcount : length (dedup_from [] arr) = distinct_count arr).
    { apply same_values_count; [apply dedup_from_NoDup, NoDup_nil_2|].
      intros v. rewrite dedup_from_elem. split; [intros [?%elem_of_nil|?]; done | auto]. }
    lia.
Qed.

(** ** Compaction after the rank assignment *)

(** X21: for a column with elements, the last slot that
    [gpu_mask_assign_slot] writes plus the validity bit of the last
    position is the number of valid elements, and no slot is above its
    position. *)
Theorem last_slot_total (mask slots : list Z) :
  0 < length slots ->
  (Z.of_nat (length slots) < 2 ^ 64)%Z ->
  length slots <= length mask * mask_bitsize ->
  exists r,
    last (gpu_mask_assign_slot 32 mask slots) = Some r /\
    (r + gpu_mask_get mask (length slots - 1))%Z
    = Z.of_nat (count_valid mask (length slots)) /\
    forall i x, gpu_mask_assign_slot 32 mask slots !! i = Some x ->
                (0 <= x <= Z.of_nat i)%Z.
Proof.
  intros Hpos HN Hcover. rewrite gpu_mask_assign_slot_rank by done.
  exists (rank mask (length slots - 1)). split; [|split].
  - rewrite last_lookup, length_fmap, length_seq.
    replace (Init.Nat.pred (length slots)) with (length slots - 1) by lia.
    by rewrite lookup_fmap_seq by lia.
  - rewrite <- rank_S. unfold rank. do 2 f_equal. lia.
  - intros i x Hx.
    assert (Hi : i < length slots).
    { apply lookup_lt_Some in Hx. by rewrite length_fmap, length_seq in Hx. }
    rewrite lookup_fmap_seq in Hx by done. injection Hx as <-.
    apply rank_bounds.
Qed.

Lemma filter_seq_iff (P Q : nat -> Prop)
    `{forall i, Decision (P i)} `{forall i, Decision (Q i)} (n : nat) :
  (forall i, i < n -> (P i <-> Q i)) ->
  filter P (seq 0 n) = filter Q (seq 0 n).
Proof.
  induction n as [|n IH]; intros Hiff; [done|].
  rewrite !filter_seq_snoc, IH by (intros; apply Hiff; lia).
  specialize (Hiff n ltac:(lia)). destruct Hiff as [H1 H2].
  repeat case_decide; try done; exfalso; auto.
Qed.

(** X22: compaction under a stride mask.  With the mask of
    [set_mask_from_stride] for a stride of at least 1, [copy_to_dense]
    puts the elements at the multiples of the stride first,
    [ceil(N / stride)] of them; the count it returns is that number when
    the last position is a multiple of the stride, and one more when it
    is not. *)
Theorem copy_to_dense_stride_mask (data mask : list Z) (stride : Z) :
  0 < mask_bitsize -> 0 < threads_per_block ->
  (1 <= stride)%Z ->
  0 < length data ->
  (Z.of_nat (length data) < 2 ^ 64)%Z ->
  length data <= length mask * mask_bitsize ->
  exists out,
    copy_to_dense data (set_mask_from_stride mask stride) None
    = Some (Ok ((ceil_div (Z.of_nat (length data)) stride
                 + if (Z.of_nat (length data - 1) mod stride =? 0)%Z then 0 else 1)%Z,
                out)) /\
    take (Z.to_nat (ceil_div (Z.of_nat (length data)) stride)) out
    = (fun i => data !!! i)
        <$> filter (fun i => (Z.of_nat i mod stride = 0)%Z) (seq 0 (length data)).
Proof.
  intros Hbits Hblock HS Hpos HN Hcover.
  set (mask' := set_mask_from_stride mask stride).
  assert (Hbit : forall i, i < length data ->
            (bit_set mask' i <-> (Z.of_nat i mod stride = 0)%Z)).
  { intros i Hi. unfold bit_set, mask'. rewrite stride_mask_get by (done || lia).
    destruct (Z.eqb_spec (Z.of_nat i mod stride) 0); simpl; split; intros; lia || done. }
  assert (Hcount : Z.of_nat (count_valid mask' (length data))
                   = ceil_div (Z.of_nat (length data)) stride).
  { unfold count_valid, valid_indices. by apply count_multiples. }
  pose proof (rank_S mask' (length data - 1)) as Hlast.
  replace (S (length data - 1)) with (length data) in Hlast by lia.
  unfold rank in Hlast. rewrite Hcount in Hlast.
  unfold mask' in Hlast at 2. rewrite stride_mask_get in Hlast by (done || lia).
  eexists. split.
  - rewrite copy_to_dense_alloc by done. fold mask'. do 3 f_equal.
    unfold rank. destruct (Z.of_nat (length data - 1) mod stride =? 0)%Z; simpl in Hlast; lia.
  - rewrite <- Hcount, Nat2Z.id.
    rewrite take_app_length' by by rewrite length_dense.
    unfold dense, valid_indices. f_equal.
    by apply filter_seq_iff.
Qed.

(** ** The kernel cache *)

Lemma construct_all_inv (dts : list dtype) :
  let st := construct_all dts (KernelCache ∅ 0) in
  dom (kc_kernels st) = list_to_set (C := gset dtype) dts /\
  kc_compiled st = size (kc_kernels st) /\
  forall dt kernel, kc_kernels st !! dt = Some kernel -> kernel = dt.
Proof.
  unfold construct_all. induction dts as [|dt dts IH] using rev_ind.
  - simpl. split; [by rewrite dom_empty_L|]. split; [by rewrite map_size_empty|].
    intros dt kernel. by rewrite lookup_empty.
  - rewrite foldl_snoc. cbv zeta in IH.
    set (st := foldl _ _ dts) in *. destruct IH as (Hdom & Hcount & Hkernels).
    rewrite list_to_set_app_L. simpl. rewrite union_empty_r_L.
    unfold _get_kernel. destruct (kc_kernels st !! dt) as [kernel|] eqn:Hdt; simpl.
    + split; [|done]. rewrite <- Hdom.
      assert (Hin : dt ∈ dom (kc_kernels st)) by (apply elem_of_dom; eauto).
      apply set_eq. intros x. rewrite elem_of_union, elem_of_singleton.
      split; [auto | intros [?| ->]; done].
    + split; [rewrite dom_insert_L, Hdom; apply union_comm_L|].
      split; [by rewrite map_size_insert_None, Hcount|].
      intros dt' kernel. rewrite lookup_insert.
      case_decide; [congruence | apply Hkernels].
Qed.

(** X23: constructing [UniqueK] for a list of element types, from an
    empty cache, compiles one kernel for each distinct type of the list
    and no more; afterwards a request for any type of the list is served
    from the cache, by the kernel of that type, and leaves the cache as it
    is. *)
Theorem kernel_cache_compiles_once (dts : list dtype) (dt : dtype) :
  dt ∈ dts ->
  kc_compiled (construct_all dts (KernelCache ∅ 0)) = length (remove_dups dts) /\
  _get_kernel dt (construct_all dts (KernelCache ∅ 0))
  = (dt, construct_all dts (KernelCache ∅ 0)).
Proof.
  intros Hdt. destruct (construct_all_inv dts) as (Hdom & Hcount & Hkernels).
  set (st := construct_all dts (KernelCache ∅ 0)) in *. split.
  - rewrite Hcount, <- size_dom, Hdom.
    rewrite <- (size_list_to_set (C := gset dtype) (remove_dups dts))
      by apply NoDup_remove_dups.
    f_equal. apply set_eq. intros x.
    by rewrite !elem_of_list_to_set, elem_of_remove_dups.
  - assert (Hin : dt ∈ dom (kc_kernels st))
      by (rewrite Hdom; by apply elem_of_list_to_set).
    apply elem_of_dom in Hin as [kernel Hk]. unfold _get_kernel. rewrite Hk.
    by rewrite (Hkernels dt kernel Hk).
Qed.

End Kernels.


(** * The kernels on concrete columns *)

(** C1: [copy_to_dense] on the four-element column [10, 20, 30, 40] with
    validity bits 1, 0, 1, 0 (mask word 5).  Two elements are valid and
    the dense column is [10, 30]; the code returns the count 3 and a third
    cell that no thread wrote.  On a column whose only element is invalid
    it returns the count 1 and one unwritten cell. *)
Theorem copy_to_dense_miscounts (stale : nat -> nat -> Z) :
  count_valid 32 [5%Z] 4 = 2 /\
  dense 32 [10; 20; 30; 40]%Z [5%Z] = [10; 30]%Z /\
  copy_to_dense 32 128 stale [10; 20; 30; 40]%Z [5%Z] None
  = Some (Ok (3%Z, [10%Z; 30%Z; stale 2 2])) /\
  count_valid 32 [0%Z] 1 = 0 /\
  copy_to_dense 32 128 stale [10%Z] [0%Z] None = Some (Ok (1%Z, [stale 2 0])).
Proof. repeat split; vm_compute; reflexivity. Qed.

(** C2: [copy_to_dense] on the all-valid column [10, 20, 30] (mask word
    7) with an output buffer of three cells: the count is 3, the buffer
    fits exactly, and the code raises [ValueError]. *)
Theorem copy_to_dense_refuses_exact_fit (stale : nat -> nat -> Z) :
  count_valid 32 [7%Z] 3 = 3 /\
  length [0; 0; 0]%Z = 3 /\
  copy_to_dense 32 128 stale [10; 20; 30]%Z [7%Z] (Some [0; 0; 0]%Z)
  = Some (Raise ValueError).
Proof. repeat split; vm_compute; reflexivity. Qed.

(** C3: [run] with [k = 1] on 64 copies of 1 followed by a 2.  The column
    has two distinct values; the set is full after the first chunk, the
    loop ends without reading the 2, and the code returns [1] with no
    error. *)
Theorem run_misses_overflow (stale : nat -> nat -> Z) :
  distinct_count (replicate 64 1%Z ++ [2%Z]) = 2 /\
  run stale (replicate 64 1%Z ++ [2%Z]) 1 = Some (Ok [1%Z]).
Proof. split; vm_compute; reflexivity. Qed.

(** C4: [compute_min] on the one-element column [5] returns 0, and
    [compute_max] on the one-element column [-5] returns 0. *)
Theorem compute_min_max_clamp (stale : nat -> nat -> Z) (consumed : list Z -> nat -> Z) :
  fst <$> compute_min stale consumed 0 None [[5%Z]] = Some 0%Z /\
  fst <$> compute_max stale consumed 0 None [[(-5)%Z]] = Some 0%Z.
Proof. split; vm_compute; reflexivity. Qed.

(** ** Instances of the theorems *)

Lemma stride_mask_bits_witness :
  (0 < 32 /\ 0 < 128 /\ (1 <= 3)%Z /\ 40 <= length [0; 0]%Z * 32) /\
  (forall i, i < length [0; 0]%Z * 32 ->
     (bit_set 32 (set_mask_from_stride 32 128 [0; 0]%Z 3) i
      <-> (Z.of_nat i mod 3 = 0)%Z)) /\
  Z.of_nat (count_valid 32 (set_mask_from_stride 32 128 [0; 0]%Z 3) 40) = ceil_div 40 3.
Proof.
  assert (H : 0 < 32 /\ 0 < 128 /\ (1 <= 3)%Z /\ 40 <= length [0; 0]%Z * 32)
    by (simpl; lia).
  split; [exact H|].
  destruct H as (H1 & H2 & H3 & H4).
  exact (stride_mask_bits 32 128 [0; 0]%Z 3 40 H1 H2 H3 H4).
Defined.

Lemma fillna_spec_witness :
  (0 < 128 /\ length [10; 20; 30; 40; 50]%Z <= length [21%Z] * 32) /\
  length (fillna 32 128 zero_fill (int 64) [10; 20; 30; 40; 50]%Z [21%Z] 99)
  = length [10; 20; 30; 40; 50]%Z /\
  forall i, i < length [10; 20; 30; 40; 50]%Z ->
    (bit_set 32 [21%Z] i ->
     fillna 32 128 zero_fill (int 64) [10; 20; 30; 40; 50]%Z [21%Z] 99 !! i
     = [10; 20; 30; 40; 50]%Z !! i) /\
    (~ bit_set 32 [21%Z] i ->
     fillna 32 128 zero_fill (int 64) [10; 20; 30; 40; 50]%Z [21%Z] 99 !! i
     = Some (cast (int 64) 99)) /\
    (~ bit_set 32 [21%Z] i -> fits (int 64) 99 ->
     fillna 32 128 zero_fill (int 64) [10; 20; 30; 40; 50]%Z [21%Z] 99 !! i = Some 99%Z).
Proof.
  assert (H : 0 < 128 /\ length [10; 20; 30; 40; 50]%Z <= length [21%Z] * 32)
    by (simpl; lia).
  split; [exact H|].
  destruct H as (H1 & H2).
  exact (fillna_spec 32 128 zero_fill (int 64) [10; 20; 30; 40; 50]%Z [21%Z] 99 H1 H2).
Defined.

(** A fill value that the element type of the column cannot hold is not
    what the invalid positions hold afterwards: 300 in a column of
    unsigned bytes leaves 44. *)
Lemma fillna_converts_fill_value :
  0 < length [1; 2]%Z /\
  ~ bit_set 32 [0%Z] 0 /\
  fillna 32 128 zero_fill (uint 8) [1; 2]%Z [0%Z] 300 !! 0 = Some 44%Z /\
  fillna 32 128 zero_fill (uint 8) [1; 2]%Z [0%Z] 300 !! 0 <> Some 300%Z.
Proof.
  split; [simpl; lia|]. split; [by vm_compute|].
  split; [by vm_compute|]. by vm_compute.
Qed.

Lemma assign_slot_rank_witness :
  ((Z.of_nat (length [0; 0; 0; 0; 0]%Z) < 2 ^ 64)%Z /\
   length [0; 0; 0; 0; 0]%Z <= length [21%Z] * 32) /\
  (forall i, i < length [0; 0; 0; 0; 0]%Z ->
     gpu_mask_assign_slot 32 zero_fill 32 [21%Z] [0; 0; 0; 0; 0]%Z !! i
     = Some (Z.of_nat (length (filter (bit_set 32 [21%Z]) (seq 0 i))))) /\
  (forall i j x y, i <= j ->
     gpu_mask_assign_slot 32 zero_fill 32 [21%Z] [0; 0; 0; 0; 0]%Z !! i = Some x ->
     gpu_mask_assign_slot 32 zero_fill 32 [21%Z] [0; 0; 0; 0; 0]%Z !! j = Some y ->
     (x <= y)%Z).
Proof.
  assert (H : (Z.of_nat (length [0; 0; 0; 0; 0]%Z) < 2 ^ 64)%Z /\
              length [0; 0; 0; 0; 0]%Z <= length [21%Z] * 32)
    by (simpl; lia).
  split; [exact H|].
  destruct H as (H1 & H2).
  exact (assign_slot_rank 32 zero_fill [21%Z] [0; 0; 0; 0; 0]%Z H1 H2).
Defined.

Lemma reductions_keep_input_witness :
  ([[5; 6]%Z] !! 0 = Some [5; 6]%Z /\ default false None = false) /\
  exists (h' : list (list Z)) (m : result (Z * nat)) (s lo hi : Z),
    h' = [[5; 6]%Z] ++ [zero_out [5; 6]%Z <$> seq 0 (length [5; 6]%Z)] /\
    h' !! 0 = Some [5; 6]%Z /\
    (forall p b, [[5; 6]%Z] !! p = Some b -> h' !! p = Some b) /\
    compute_mean zero_fill zero_out (int 64) 0 None [[5; 6]%Z] = Some (m, h') /\
    compute_sum zero_fill zero_out (int 64) 0 None [[5; 6]%Z] = Some (s, h') /\
    compute_min zero_fill zero_out 0 None [[5; 6]%Z] = Some (lo, h') /\
    compute_max zero_fill zero_out 0 None [[5; 6]%Z] = Some (hi, h').
Proof.
  split; [split; reflexivity|].
  exact (reductions_keep_input zero_fill zero_out (int 64) [[5; 6]%Z] 0 [5; 6]%Z None
           eq_refl eq_refl).
Defined.

Lemma unique_values_distinct_witness :
  ((0 < 3 < MAX_FAST_UNIQUE_K)%Z /\
   (Z.of_nat (distinct_count [3; 1; 3; 2; 1]%Z) <= 3)%Z) /\
  exists vals,
    run zero_fill [3; 1; 3; 2; 1]%Z 3 = Some (Ok vals) /\
    length vals = distinct_count [3; 1; 3; 2; 1]%Z /\
    NoDup vals /\
    (forall v, v ∈ vals -> v ∈ [3; 1; 3; 2; 1]%Z) /\
    (forall v, v ∈ [3; 1; 3; 2; 1]%Z -> v ∈ vals).
Proof.
  assert (H : (0 < 3 < MAX_FAST_UNIQUE_K)%Z /\
              (Z.of_nat (distinct_count [3; 1; 3; 2; 1]%Z) <= 3)%Z)
    by (vm_compute; repeat split; discriminate).
  split; [exact H|].
  destruct H as (H1 & H2).
  exact (unique_values_distinct zero_fill [3; 1; 3; 2; 1]%Z 3 H1 H2).
Defined.

Lemma unique_values_empty_witness :
  (0 < 5 < MAX_FAST_UNIQUE_K)%Z /\
  run zero_fill [] 5 = Some (Ok []) /\
  (forall fuel st,
     unique_loop fuel [] (5 `min` MAX_FAST_UNIQUE_K)%Z 64 st = Some st) /\
  gpu_unique_k zero_fill 64 [] 5 (device_array_like zero_fill 3 [])
               (device_array zero_fill 2 1)
  = Some ([], [0%Z]).
Proof.
  assert (H : (0 < 5 < MAX_FAST_UNIQUE_K)%Z) by (unfold MAX_FAST_UNIQUE_K; lia).
  split; [exact H|].
  exact (unique_values_empty zero_fill 5 H).
Defined.

Lemma gpu_prefixsum_scan_witness :
  (Forall (fun x => 0 <= x)%Z [1; 0; 1]%Z /\ (0 <= 5)%Z /\
   (5 + total [1; 0; 1]%Z < 2 ^ 64)%Z) /\
  gpu_prefixsum [1; 0; 1]%Z 5
  = ((fun t => 5 + total (take t [1; 0; 1]%Z))%Z <$> seq 0 (length [1; 0; 1]%Z),
     (5 + total [1; 0; 1]%Z)%Z).
Proof.
  assert (H1 : Forall (fun x => 0 <= x)%Z [1; 0; 1]%Z) by (repeat constructor; lia).
  assert (H2 : (0 <= 5)%Z) by lia.
  assert (H3 : (5 + total [1; 0; 1]%Z < 2 ^ 64)%Z) by (vm_compute; reflexivity).
  exact (conj (conj H1 (conj H2 H3)) (gpu_prefixsum_scan [1; 0; 1]%Z 5 H1 H2 H3)).
Defined.

Lemma copy_to_dense_prefix_witness :
  (0 < 128 /\ 0 < length [10; 20; 30; 40]%Z /\
   (Z.of_nat (length [10; 20; 30; 40]%Z) < 2 ^ 64)%Z /\
   length [10; 20; 30; 40]%Z <= length [5%Z] * 32) /\
  exists sz out,
    copy_to_dense 32 128 zero_fill [10; 20; 30; 40]%Z [5%Z] None = Some (Ok (sz, out)) /\
    sz = (rank 32 [5%Z] (length [10; 20; 30; 40]%Z - 1) + 1)%Z /\
    Z.of_nat (length out) = sz /\
    take (count_valid 32 [5%Z] (length [10; 20; 30; 40]%Z)) out
    = dense 32 [10; 20; 30; 40]%Z [5%Z] /\
    count_valid 32 [5%Z] (length [10; 20; 30; 40]%Z) <= length out
    <= S (count_valid 32 [5%Z] (length [10; 20; 30; 40]%Z)).
Proof.
  assert (H1 : 0 < 128) by lia.
  assert (H2 : 0 < length [10; 20; 30; 40]%Z) by (simpl; lia).
  assert (H3 : (Z.of_nat (length [10; 20; 30; 40]%Z) < 2 ^ 64)%Z) by (simpl; lia).
  assert (H4 : length [10; 20; 30; 40]%Z <= length [5%Z] * 32) by (simpl; lia).
  exact (conj (conj H1 (conj H2 (conj H3 H4)))
           (copy_to_dense_prefix 32 128 zero_fill [10; 20; 30; 40]%Z [5%Z] H1 H2 H3 H4)).
Defined.

Lemma copy_to_dense_all_valid_witness :
  (0 < 128 /\ 0 < length [10; 20; 30]%Z /\
   (Z.of_nat (length [10; 20; 30]%Z) < 2 ^ 64)%Z /\
   length [10; 20; 30]%Z <= length [7%Z] * 32 /\
   (forall i, i < length [10; 20; 30]%Z -> bit_set 32 [7%Z] i)) /\
  copy_to_dense 32 128 zero_fill [10; 20; 30]%Z [7%Z] None
  = Some (Ok (Z.of_nat (length [10; 20; 30]%Z), [10; 20; 30]%Z)).
Proof.
  assert (H1 : 0 < 128) by lia.
  assert (H2 : 0 < length [10; 20; 30]%Z) by (simpl; lia).
  assert (H3 : (Z.of_nat (length [10; 20; 30]%Z) < 2 ^ 64)%Z) by (simpl; lia).
  assert (H4 : length [10; 20; 30]%Z <= length [7%Z] * 32) by (simpl; lia).
  assert (H5 : forall i, i < length [10; 20; 30]%Z -> bit_set 32 [7%Z] i).
  { intros i Hi. simpl in Hi.
    destruct i as [|[|[|i]]]; [reflexivity | reflexivity | reflexivity | lia]. }
  exact (conj (conj H1 (conj H2 (conj H3 (conj H4 H5))))
           (copy_to_dense_all_valid 32 128 zero_fill [10; 20; 30]%Z [7%Z] H1 H2 H3 H4 H5)).
Defined.


Lemma fillna_twice_witness :
  (0 < 128 /\ length [10; 20; 30]%Z <= length [5%Z] * 32) /\
  fillna 32 128 zero_fill (uint 8)
    (fillna 32 128 zero_fill (uint 8) [10; 20; 30]%Z [5%Z] 1) [5%Z] 2
  = fillna 32 128 zero_fill (uint 8) [10; 20; 30]%Z [5%Z] 2.
Proof.
  assert (H1 : 0 < 128) by lia.
  assert (H2 : length [10; 20; 30]%Z <= length [5%Z] * 32) by (simpl; lia).
  exact (conj (conj H1 H2) (fillna_twice 32 128 zero_fill (uint 8) [10; 20; 30]%Z [5%Z] 1 2 H1 H2)).
Defined.

Lemma fillna_extremes_witness :
  (0 < 128 /\ length [10; 20; 30]%Z <= length [7%Z] * 32) /\
  ((forall i, i < length [10; 20; 30]%Z -> bit_set 32 [7%Z] i) ->
   fillna 32 128 zero_fill (uint 8) [10; 20; 30]%Z [7%Z] 300 = [10; 20; 30]%Z) /\
  ((forall i, i < length [10; 20; 30]%Z -> ~ bit_set 32 [7%Z] i) ->
   fillna 32 128 zero_fill (uint 8) [10; 20; 30]%Z [7%Z] 300
   = replicate (length [10; 20; 30]%Z) (cast (uint 8) 300)).
Proof.
  assert (H1 : 0 < 128) by lia.
  assert (H2 : length [10; 20; 30]%Z <= length [7%Z] * 32) by (simpl; lia).
  exact (conj (conj H1 H2) (fillna_extremes 32 128 zero_fill (uint 8) [10; 20; 30]%Z [7%Z] 300 H1 H2)).
Defined.

Lemma fillna_stride_mask_witness :
  (0 < 32 /\ 0 < 128 /\ (1 <= 2)%Z /\ length [10; 20; 30]%Z <= length [0%Z] * 32 /\
   [10; 20; 30]%Z !! 1 = Some 20%Z) /\
  fillna 32 128 zero_fill (uint 8) [10; 20; 30]%Z (set_mask_from_stride 32 128 [0%Z] 2) 300
    !! 1
  = Some (if (Z.of_nat 1 mod 2 =? 0)%Z then 20%Z else cast (uint 8) 300).
Proof.
  assert (H1 : 0 < 32) by lia.
  assert (H2 : 0 < 128) by lia.
  assert (H3 : (1 <= 2)%Z) by lia.
  assert (H4 : length [10; 20; 30]%Z <= length [0%Z] * 32) by (simpl; lia).
  assert (H5 : [10; 20; 30]%Z !! 1 = Some 20%Z) by reflexivity.
  exact (conj (conj H1 (conj H2 (conj H3 (conj H4 H5))))
           (fillna_stride_mask 32 128 zero_fill (uint 8) [10; 20; 30]%Z [0%Z] 2 300 1 20
              H1 H2 H3 H4 H5)).
Defined.

Lemma set_mask_from_stride_overwrites_witness :
  (0 < 128 /\ length [0; 0]%Z = length [5; 9]%Z) /\
  length (set_mask_from_stride 32 128 [0; 0]%Z 3) = length [0; 0]%Z /\
  set_mask_from_stride 32 128 [0; 0]%Z 3 = set_mask_from_stride 32 128 [5; 9]%Z 3 /\
  Forall (fun w => 0 <= w < 2 ^ Z.of_nat 32)%Z (set_mask_from_stride 32 128 [0; 0]%Z 3).
Proof.
  assert (H1 : 0 < 128) by lia.
  assert (H2 : length [0; 0]%Z = length [5; 9]%Z) by reflexivity.
  exact (conj (conj H1 H2)
           (set_mask_from_stride_overwrites 32 128 [0; 0]%Z [5; 9]%Z 3 H1 H2)).
Defined.

Lemma apply_equal_constant_cells_witness :
  (0 < 128 /\ fits (uint 8) 1) /\
  apply_equal_constant 128 zero_fill [3; 4; 3]%Z 3 (uint 8)
  = (fun x => if decide (x = 3%Z) then 1%Z else 0%Z) <$> [3; 4; 3]%Z.
Proof.
  assert (H1 : 0 < 128) by lia.
  assert (H2 : fits (uint 8) 1) by reflexivity.
  exact (conj (conj H1 H2)
           (apply_equal_constant_cells 128 zero_fill [3; 4; 3]%Z 3 (uint 8) H1 H2)).
Defined.

Lemma astype_converts_witness :
  0 < 128 /\
  astype 128 zero_fill (uint 16) [1; 300]%Z (uint 16) = [1; 300]%Z /\
  length (astype 128 zero_fill (uint 16) [1; 300]%Z (uint 8)) = length [1; 300]%Z /\
  (uint 16 <> uint 8 ->
   forall i x, [1; 300]%Z !! i = Some x ->
     astype 128 zero_fill (uint 16) [1; 300]%Z (uint 8) !! i = Some (cast (uint 8) x)).
Proof.
  assert (H1 : 0 < 128) by lia.
  exact (conj H1 (astype_converts 128 zero_fill (uint 16) [1; 300]%Z (uint 8) H1)).
Defined.

Lemma astype_widen_narrow_witness :
  (0 < 128 /\ 8 <= 16 /\ Forall (fun v => 0 <= v < 2 ^ Z.of_nat 8)%Z [1; 200]%Z) /\
  astype 128 zero_fill (uint 16) (astype 128 zero_fill (uint 8) [1; 200]%Z (uint 16)) (uint 8)
  = [1; 200]%Z.
Proof.
  assert (H1 : 0 < 128) by lia.
  assert (H2 : 8 <= 16) by lia.
  assert (H3 : Forall (fun v => 0 <= v < 2 ^ Z.of_nat 8)%Z [1; 200]%Z)
    by (repeat constructor; simpl; lia).
  exact (conj (conj H1 (conj H2 H3))
           (astype_widen_narrow 128 zero_fill 8 16 [1; 200]%Z H1 H2 H3)).
Defined.

Lemma copy_array_to_spec_witness :
  ([[1; 2]%Z; [0; 0]%Z] !! 0 = Some [1; 2]%Z /\
   [[1; 2]%Z; [0; 0]%Z] !! 1 = Some [0; 0]%Z) /\
  copy_array_to 0 1 [[1; 2]%Z; [0; 0]%Z]
  = if decide (length [0; 0]%Z = length [1; 2]%Z)
    then Some (1, <[1 := [1; 2]%Z]> [[1; 2]%Z; [0; 0]%Z])
    else None.
Proof.
  exact (conj (conj eq_refl eq_refl)
           (copy_array_to_spec [[1; 2]%Z; [0; 0]%Z] 0 1 [1; 2]%Z [0; 0]%Z eq_refl eq_refl)).
Defined.


Lemma reductions_consume_input_witness :
  [[5; 6]%Z] !! 0 = Some [5; 6]%Z /\
  exists (h' : list (list Z)) (m : result (Z * nat)) (s lo hi : Z),
    h' = <[0 := zero_out [5; 6]%Z <$> seq 0 (length [5; 6]%Z)]> [[5; 6]%Z] /\
    length h' = length [[5; 6]%Z] /\
    (forall p, p <> 0 -> h' !! p = [[5; 6]%Z] !! p) /\
    (compute_sum zero_fill zero_out (int 64) 0 (Some true) [[5; 6]%Z] = Some (s, h') /\
     compute_min zero_fill zero_out 0 (Some true) [[5; 6]%Z] = Some (lo, h') /\
     compute_max zero_fill zero_out 0 (Some true) [[5; 6]%Z] = Some (hi, h') /\
     compute_mean zero_fill zero_out (int 64) 0 (Some true) [[5; 6]%Z] = Some (m, h')) /\
    (fst <$> compute_sum zero_fill zero_out (int 64) 0 None [[5; 6]%Z] = Some s /\
     fst <$> compute_min zero_fill zero_out 0 None [[5; 6]%Z] = Some lo /\
     fst <$> compute_max zero_fill zero_out 0 None [[5; 6]%Z] = Some hi /\
     fst <$> compute_mean zero_fill zero_out (int 64) 0 None [[5; 6]%Z] = Some m).
Proof.
  exact (conj eq_refl
           (reductions_consume_input zero_fill zero_out (int 64) [[5; 6]%Z] 0 [5; 6]%Z
              eq_refl)).
Defined.

Lemma compute_min_max_bounds_witness :
  [[5; (-6)]%Z] !! 0 = Some [5; (-6)]%Z /\
  exists lo hi : Z,
    fst <$> compute_min zero_fill zero_out 0 None [[5; (-6)]%Z] = Some lo /\
    fst <$> compute_max zero_fill zero_out 0 None [[5; (-6)]%Z] = Some hi /\
    (lo <= 0 <= hi)%Z /\
    Forall (fun x => lo <= x <= hi)%Z [5; (-6)]%Z /\
    (lo = 0%Z \/ lo ∈ [5; (-6)]%Z) /\
    (hi = 0%Z \/ hi ∈ [5; (-6)]%Z).
Proof.
  exact (conj eq_refl
           (compute_min_max_bounds zero_fill zero_out [[5; (-6)]%Z] 0 [5; (-6)]%Z None
              eq_refl)).
Defined.

Lemma compute_stats_keeps_input_witness :
  (0 < 128 /\ [[5; 7]%Z] !! 0 = Some [5; 7]%Z) /\
  exists (h' : list (list Z)) (r : result ((Z * nat) * (Z * nat))),
    compute_stats 128 zero_fill zero_out cross_dev (int 64) 0 [[5; 7]%Z] = Some (r, h') /\
    (forall p b, [[5; 7]%Z] !! p = Some b -> h' !! p = Some b) /\
    ([5; 7]%Z = [] -> r = Raise ZeroDivisionError /\ h' = [[5; 7]%Z] ++ [[]]) /\
    ([5; 7]%Z <> [] ->
     exists (mu var : Z * nat) (devs : list Z),
       r = Ok (mu, var) /\
       fst <$> compute_mean zero_fill zero_out (int 64) 0 None [[5; 7]%Z] = Some (Ok mu) /\
       devs = (fun x => cross_dev x mu) <$> [5; 7]%Z /\
       fst <$> compute_mean zero_fill zero_out (int 64) 0 (Some true) [devs]
       = Some (Ok var) /\
       h' = [[5; 7]%Z] ++ [zero_out [5; 7]%Z <$> seq 0 (length [5; 7]%Z);
                           zero_out devs <$> seq 0 (length [5; 7]%Z)]).
Proof.
  assert (H1 : 0 < 128) by lia.
  exact (conj (conj H1 eq_refl)
           (compute_stats_keeps_input 128 zero_fill zero_out cross_dev (int 64)
              [[5; 7]%Z] 0 [5; 7]%Z H1 eq_refl)).
Defined.

Lemma gpu_unique_set_insert_cases_witness :
  2 <= length [4; 5; 0]%Z /\
  gpu_unique_set_insert [4; 5; 0]%Z (Z.of_nat 2) 6
  = if decide (6%Z ∈ take 2 [4; 5; 0]%Z) then ([4; 5; 0]%Z, Z.of_nat 2)
    else if decide (2 < length [4; 5; 0]%Z)
         then (<[2 := 6%Z]> [4; 5; 0]%Z, (Z.of_nat 2 + 1)%Z)
         else ([4; 5; 0]%Z, (-1)%Z).
Proof.
  assert (H1 : 2 <= length [4; 5; 0]%Z) by (simpl; lia).
  exact (conj H1 (gpu_unique_set_insert_cases [4; 5; 0]%Z 2 6 H1)).
Defined.

Lemma run_first_occurrence_witness :
  ((3 < MAX_FAST_UNIQUE_K)%Z /\ (Z.of_nat (distinct_count [3; 1; 3; 2; 1]%Z) <= 3)%Z) /\
  run zero_fill [3; 1; 3; 2; 1]%Z 3 = Some (Ok (dedup_from [] [3; 1; 3; 2; 1]%Z)).
Proof.
  assert (H1 : (3 < MAX_FAST_UNIQUE_K)%Z) by (vm_compute; reflexivity).
  assert (H2 : (Z.of_nat (distinct_count [3; 1; 3; 2; 1]%Z) <= 3)%Z)
    by (vm_compute; discriminate).
  exact (conj (conj H1 H2) (run_first_occurrence zero_fill [3; 1; 3; 2; 1]%Z 3 H1 H2)).
Defined.

Lemma run_one_chunk_overflow_witness :
  (length [1; 2; 3]%Z <= 64 /\ (0 < 2 < MAX_FAST_UNIQUE_K)%Z) /\
  (run zero_fill [1; 2; 3]%Z 2 = Some (Raise ValueError)
   <-> (2 < Z.of_nat (distinct_count [1; 2; 3]%Z))%Z).
Proof.
  assert (H1 : length [1; 2; 3]%Z <= 64) by (simpl; lia).
  assert (H2 : (0 < 2 < MAX_FAST_UNIQUE_K)%Z) by (unfold MAX_FAST_UNIQUE_K; lia).
  exact (conj (conj H1 H2) (run_one_chunk_overflow zero_fill [1; 2; 3]%Z 2 H1 H2)).
Defined.

Lemma last_slot_total_witness :
  (0 < length [0; 0; 0; 0]%Z /\ (Z.of_nat (length [0; 0; 0; 0]%Z) < 2 ^ 64)%Z /\
   length [0; 0; 0; 0]%Z <= length [5%Z] * 32) /\
  exists r,
    last (gpu_mask_assign_slot 32 zero_fill 32 [5%Z] [0; 0; 0; 0]%Z) = Some r /\
    (r + gpu_mask_get 32 [5%Z] (length [0; 0; 0; 0]%Z - 1))%Z
    = Z.of_nat (count_valid 32 [5%Z] (length [0; 0; 0; 0]%Z)) /\
    forall i x, gpu_mask_assign_slot 32 zero_fill 32 [5%Z] [0; 0; 0; 0]%Z !! i = Some x ->
                (0 <= x <= Z.of_nat i)%Z.
Proof.
  assert (H1 : 0 < length [0; 0; 0; 0]%Z) by (simpl; lia).
  assert (H2 : (Z.of_nat (length [0; 0; 0; 0]%Z) < 2 ^ 64)%Z) by (simpl; lia).
  assert (H3 : length [0; 0; 0; 0]%Z <= length [5%Z] * 32) by (simpl; lia).
  exact (conj (conj H1 (conj H2 H3))
           (last_slot_total 32 zero_fill [5%Z] [0; 0; 0; 0]%Z H1 H2 H3)).
Defined.

Lemma copy_to_dense_stride_mask_witness :
  (0 < 32 /\ 0 < 128 /\ (1 <= 2)%Z /\ 0 < length [10; 20; 30; 40]%Z /\
   (Z.of_nat (length [10; 20; 30; 40]%Z) < 2 ^ 64)%Z /\
   length [10; 20; 30; 40]%Z <= length [0%Z] * 32) /\
  exists out,
    copy_to_dense 32 128 zero_fill [10; 20; 30; 40]%Z (set_mask_from_stride 32 128 [0%Z] 2) None
    = Some (Ok ((ceil_div (Z.of_nat (length [10; 20; 30; 40]%Z)) 2
                 + if (Z.of_nat (length [10; 20; 30; 40]%Z - 1) mod 2 =? 0)%Z
                   then 0 else 1)%Z,
                out)) /\
    take (Z.to_nat (ceil_div (Z.of_nat (length [10; 20; 30; 40]%Z)) 2)) out
    = (fun i => [10; 20; 30; 40]%Z !!! i)
        <$> filter (fun i => (Z.of_nat i mod 2 = 0)%Z) (seq 0 (length [10; 20; 30; 40]%Z)).
Proof.
  assert (H1 : 0 < 32) by lia.
  assert (H2 : 0 < 128) by lia.
  assert (H3 : (1 <= 2)%Z) by lia.
  assert (H4 : 0 < length [10; 20; 30; 40]%Z) by (simpl; lia).
  assert (H5 : (Z.of_nat (length [10; 20; 30; 40]%Z) < 2 ^ 64)%Z) by (simpl; lia).
  assert (H6 : length [10; 20; 30; 40]%Z <= length [0%Z] * 32) by (simpl; lia).
  exact (conj (conj H1 (conj H2 (conj H3 (conj H4 (conj H5 H6)))))
           (copy_to_dense_stride_mask 32 128 zero_fill [10; 20; 30; 40]%Z [0%Z] 2
              H1 H2 H3 H4 H5 H6)).
Defined.

Lemma kernel_cache_compiles_once_witness :
  uint 8 ∈ [uint 8; int 32; uint 8] /\
  kc_compiled (construct_all [uint 8; int 32; uint 8] (KernelCache ∅ 0))
  = length (remove_dups [uint 8; int 32; uint 8]) /\
  _get_kernel (uint 8) (construct_all [uint 8; int 32; uint 8] (KernelCache ∅ 0))
  = (uint 8, construct_all [uint 8; int 32; uint 8] (KernelCache ∅ 0)).
Proof.
  assert (H1 : uint 8 ∈ [uint 8; int 32; uint 8]) by (apply list_elem_of_here).
  exact (conj H1 (kernel_cache_compiles_once [uint 8; int 32; uint 8] (uint 8) H1)).
Defined.
